(** * zwave-lock: the user-code workflow, the code store, the driver
      lifecycle and the configuration file, embedded from
      [src/commands.ts], [src/code-storage.ts], [src/driver.ts] and
      [src/config.ts].

    Console output is presentation and is left out of the embedding; every
    other statement of the embedded functions is kept, in source order. *)

From Stdlib Require Import ZArith List String Ascii Bool Lia.
From Stdlib Require Import Sorted Permutation.
From Stdlib.Strings Require Import Byte.
Import ListNotations.
Open Scope string_scope.
Open Scope list_scope.
Open Scope Z_scope.

Set Implicit Arguments.

(* ================================================================== *)
(** ** Exceptions and the state-and-exception monad *)
(* ================================================================== *)

(** The [Error] values the embedded functions throw or let through. *)
Inductive Error : Type :=
| NodeNotFound (nodeId : Z)
    (* new Error(`Node ${nodeId} not found`) *)
| NoUserCodeCC (nodeId : Z)
    (* new Error(`Node ${nodeId} does not support User Code command class`) *)
| LockRejected (slot : Z) (status : option Z)
    (* new Error(`Failed to set user code in slot ${slot} - lock rejected
       the code (status remains ${status}). Code may be duplicate or
       invalid.`) *)
| CommandError (msg : string)
    (* whatever a zwave-js command-class call rejects with *)
| InvalidPin
    (* new Error('PIN must be 4-8 digits') *)
| WriteError
    (* what fs.writeFileSync throws *)
| InvalidKeyLength
    (* createCipheriv / createDecipheriv on a key that is not 32 bytes *)
| AuthFailed
    (* decipher.final(): unable to authenticate data *)
| TypeError
    (* a property read on null or undefined, a call of what is no function,
       an assignment to a property of a primitive *)
| ConfigError
    (* new Error('Serial port not configured. ...') *)
| StartError (msg : string).
    (* what driver.start() rejects with, or the ready-timeout error *)

Inductive Res (A : Type) : Type :=
| Ok (a : A)
| Throw (e : Error).

Arguments Ok {A} a.
Arguments Throw {A} e.

(** A computation over a mutable state [S] that returns or throws.  The state
    reached when an exception is thrown is kept: a [catch] resumes from it. *)
Definition M (S A : Type) : Type := S -> Res A * S.

Definition ret {S A} (a : A) : M S A := fun s => (Ok a, s).

Definition throw {S A} (e : Error) : M S A := fun s => (Throw e, s).

Definition bind {S A B} (m : M S A) (k : A -> M S B) : M S B :=
  fun s =>
    match m s with
    | (Ok a, s') => k a s'
    | (Throw e, s') => (Throw e, s')
    end.

(** [try { x = m } catch (error) { log }]: the exception is swallowed. *)
Definition try_ {S A} (m : M S A) : M S (option A) :=
  fun s =>
    match m s with
    | (Ok a, s') => (Ok (Some a), s')
    | (Throw _, s') => (Ok None, s')
    end.

Definition gets {S A} (f : S -> A) : M S A := fun s => (Ok (f s), s).

Definition modify {S} (f : S -> S) : M S unit := fun s => (Ok tt, f s).

Declare Scope monad_scope.
Delimit Scope monad_scope with monad.
Notation "x <- m ;; k" := (bind m (fun x => k))
  (at level 61, m at next level, right associativity) : monad_scope.
Notation "m ;;; k" := (bind m (fun _ => k))
  (at level 61, right associativity) : monad_scope.
Open Scope monad_scope.

(* ================================================================== *)
(** ** The code store's data ([src/code-storage.ts], interfaces) *)
(* ================================================================== *)

(** [interface UserCode]: the [pin] field holds the encrypted blob. *)
Record UserCode : Type := mkUserCode {
  slot : Z;
  name : string;
  pin : string
}.

(** [interface CodeStorage]. *)
Record CodeStorage : Type := mkCodeStorage {
  codes : list UserCode
}.

(** What [user-codes.json] is to [loadStorage]: absent, present but not
    readable ([readFileSync] throws), present but not JSON ([JSON.parse]
    throws), the serialisation of a [CodeStorage], or JSON of another shape:
    any value whose [codes] is not an array ([null], [{}], [[]], a number or
    a string, [{"codes": null}], ...).  The elements of a [codes] array are
    records of the interface [UserCode], as [saveStorage] writes them. *)
Inductive FileState : Type :=
| Missing
| Unreadable
| Corrupt
| Stored (storage : CodeStorage)
| Misshapen.

(** What [loadStorage] hands to its caller.  [JSON.parse] is untyped, so the
    value is a [CodeStorage] only when the file held one. *)
Inductive StorageValue : Type :=
| Storage (storage : CodeStorage)
| NotStorage.

(** The part of the process the code store reads and writes: the store file,
    whether it can be written, the module variable [encryptionKey], the
    environment variable [CODE_ENCRYPTION_KEY] and the bytes
    [crypto.randomBytes] will deliver, in order. *)
Record Proc : Type := mkProc {
  file : FileState;
  writable : bool;
  encryptionKey : option (list byte);
  CODE_ENCRYPTION_KEY : option string;
  entropy : nat -> byte
}.

(* ================================================================== *)
(** ** The lock, as the commands layer sees it ([src/commands.ts]) *)
(* ================================================================== *)

(** What [userCodeCC.get(slot)] resolves to when it is not [undefined]. *)
Record UserCodeData : Type := mkUserCodeData {
  userIdStatus : Z;
  userCode : option string
}.

(** What an awaited zwave-js call comes back with: a value, or a rejection
    with the library's error message (timeout, no acknowledgement, ...). *)
Inductive Reply (A : Type) : Type :=
| Answer (a : A)
| Fails (msg : string).

Arguments Answer {A} a.
Arguments Fails {A} msg.

(** The User Code command-class API of a node, over the state [D] of the
    remote device and radio link.  Every call may fail; the values of
    [getCapabilities] and [set] (the supervision result) are only printed. *)
Record UserCodeCC (D : Type) : Type := mkUserCodeCC {
  getCapabilities : D -> Reply unit * D;
  getUsersCount : D -> Reply (option Z) * D;
  get : Z -> D -> Reply (option UserCodeData) * D;
  set : Z -> Z -> string -> D -> Reply unit * D;
  clear : Z -> D -> Reply unit * D
}.

(** [node.commandClasses['User Code']] may be absent. *)
Record ZWaveNode (D : Type) : Type := mkNode {
  userCodeCommandClass : option (UserCodeCC D)
}.

(** [driver.controller.nodes.get(nodeId)]. *)
Record Driver (D : Type) : Type := mkDriver {
  nodes : Z -> option (ZWaveNode D)
}.

(** What the commands layer makes the outside world do, in order. *)
Inductive Event : Type :=
| EvGetCapabilities
| EvGetUsersCount
| EvGet (slot : Z)
| EvSet (slot status : Z) (code : string)
| EvClear (slot : Z)
| EvSleep (ms : Z).

(** The world a command runs in: the device, the process state of the code
    store, and the record of what was sent so far. *)
Record World (D : Type) : Type := mkWorld {
  dev : D;
  proc : Proc;
  sent : list Event
}.

Definition thrown {A} (r : Reply A) : Res A :=
  match r with
  | Answer a => Ok a
  | Fails msg => Throw (CommandError msg)
  end.

(** One awaited command-class call. *)
Definition call {D A} (ev : Event) (op : D -> Reply A * D) : M (World D) A :=
  fun w =>
    (thrown (fst (op (dev w))),
     {| dev := snd (op (dev w)); proc := proc w; sent := sent w ++ [ev] |}).

(** [await new Promise(resolve => setTimeout(resolve, ms))]. *)
Definition sleep {D} (ms : Z) : M (World D) unit :=
  fun w => (Ok tt, {| dev := dev w; proc := proc w; sent := sent w ++ [EvSleep ms] |}).

(** An element of the array [getUserCodes] returns. *)
Record CodeEntry : Type := mkCodeEntry {
  entry_slot : Z;
  entry_status : Z
}.

(** [usersCount || 30]: [undefined] and [0] are falsy. *)
Definition maxSlots_of (usersCount : option Z) : Z :=
  match usersCount with
  | Some n => if n =? 0 then 30 else n
  | None => 30
  end.

(** The values [slot] takes in [for (let slot = 1; slot <= maxSlots; slot++)]. *)
Definition slots_upto (maxSlots : Z) : list Z :=
  map Z.of_nat (seq 1 (Z.to_nat maxSlots)).

(** The body of the loop of [getUserCodes], iterated over the remaining
    slots; [acc] is the array [codes]. *)
Fixpoint query_slots {D} (cc : UserCodeCC D) (slots : list Z)
    (acc : list CodeEntry) : M (World D) (list CodeEntry) :=
  match slots with
  | [] => ret acc
  | s :: rest =>
      r <- try_ (call (EvGet s) (get cc s)) ;;
      match r with
      | Some (Some codeData) =>
          if userIdStatus codeData =? 0
          then query_slots cc rest acc
          else query_slots cc rest
                 (acc ++ [{| entry_slot := s;
                             entry_status := userIdStatus codeData |}])
      | _ => query_slots cc rest acc
      end
  end.

Definition getUserCodes {D} (driver : Driver D) (nodeId : Z)
    : M (World D) (list CodeEntry) :=
  match nodes driver nodeId with
  | None => throw (NodeNotFound nodeId)
  | Some node =>
      match userCodeCommandClass node with
      | None => throw (NoUserCodeCC nodeId)
      | Some userCodeCC =>
          usersCount <- call EvGetUsersCount (getUsersCount userCodeCC) ;;
          query_slots userCodeCC (slots_upto (maxSlots_of usersCount)) []
      end
  end.

(** [verification?.userIdStatus]. *)
Definition status_of (verification : option UserCodeData) : option Z :=
  option_map userIdStatus verification.

(** [verification?.userIdStatus !== 1]. *)
Definition not_occupied (verification : option UserCodeData) : bool :=
  match status_of verification with
  | Some st => negb (st =? 1)
  | None => true
  end.

Definition setUserCode {D} (driver : Driver D) (nodeId slot : Z)
    (code : string) : M (World D) unit :=
  match nodes driver nodeId with
  | None => throw (NodeNotFound nodeId)
  | Some node =>
      match userCodeCommandClass node with
      | None => throw (NoUserCodeCC nodeId)
      | Some userCodeCC =>
          (* Step 1: capabilities, failure only warned about *)
          try_ (call EvGetCapabilities (getCapabilities userCodeCC)) ;;;
          (* Step 2: current state of the slot, failure only warned about *)
          try_ (call (EvGet slot) (get userCodeCC slot)) ;;;
          (* Step 3 (clear) is commented out in the source *)
          (* Step 4: set, an exception is logged and rethrown *)
          call (EvSet slot 1 code) (set userCodeCC slot 1 code) ;;;
          (* Step 5: wait for the EEPROM write *)
          sleep 5000 ;;;
          (* Step 6: read back, an exception is logged and rethrown *)
          verification <- call (EvGet slot) (get userCodeCC slot) ;;
          if not_occupied verification
          then throw (LockRejected slot (status_of verification))
          else ret tt
      end
  end.


(* ================================================================== *)
(** ** Buffers and strings as Node handles them *)
(* ================================================================== *)

Definition hex_digit (n : N) : ascii :=
  match n with
  | 0%N => "0" | 1%N => "1" | 2%N => "2" | 3%N => "3"
  | 4%N => "4" | 5%N => "5" | 6%N => "6" | 7%N => "7"
  | 8%N => "8" | 9%N => "9" | 10%N => "a" | 11%N => "b"
  | 12%N => "c" | 13%N => "d" | 14%N => "e" | _ => "f"
  end%char.

(** The value of a hexadecimal digit, in either case, from its code. *)
Definition hex_value (c : ascii) : option N :=
  let n := N_of_ascii c in
  (if (48 <=? n) && (n <=? 57) then Some (n - 48)
   else if (97 <=? n) && (n <=? 102) then Some (n - 87)
   else if (65 <=? n) && (n <=? 70) then Some (n - 55)
   else None)%N.

(** [buf.toString('hex')]: two lower-case digits per byte. *)
Fixpoint to_hex (buf : list byte) : string :=
  match buf with
  | [] => EmptyString
  | b :: rest =>
      String (hex_digit (Byte.to_N b / 16))
        (String (hex_digit (Byte.to_N b mod 16)) (to_hex rest))
  end.

(** [Buffer.from(s, 'hex')]: decoding stops at the first pair that is not two
    hexadecimal digits, and a trailing single character is dropped. *)
Fixpoint from_hex (s : string) : list byte :=
  match s with
  | String a (String b rest) =>
      match hex_value a, hex_value b with
      | Some h, Some l =>
          match Byte.of_N (16 * h + l) with
          | Some x => x :: from_hex rest
          | None => []
          end
      | _, _ => []
      end
  | _ => []
  end.

Fixpoint str_take (n : nat) (s : string) : string :=
  match n, s with
  | S n', String c s' => String c (str_take n' s')
  | _, _ => EmptyString
  end.

Fixpoint str_drop (n : nat) (s : string) : string :=
  match n, s with
  | S n', String _ s' => str_drop n' s'
  | _, _ => s
  end.

(** [s.slice(a, b)] and [s.slice(a)] for [0 <= a <= b]. *)
Definition slice (a b : nat) (s : string) : string :=
  str_take (b - a) (str_drop a s).

Definition slice_from (a : nat) (s : string) : string := str_drop a s.

(** A string is held as the bytes of its UTF-8 form, so encoding with 'utf8'
    is the identity on bytes.  (Node's decoder replaces ill-formed input by
    U+FFFD; authenticated plaintext came from a string and is well formed.) *)
Definition utf8_encode (text : string) : list byte := list_byte_of_string text.

Definition utf8_decode (buf : list byte) : string := string_of_list_byte buf.

Definition is_digit (c : ascii) : bool :=
  ((48 <=? N_of_ascii c) && (N_of_ascii c <=? 57))%N.

(** [/^\d{4,8}$/.test(pin)]: no flags, so [$] is the end of the input. *)
Definition valid_pin (pin : string) : bool :=
  forallb is_digit (list_ascii_of_string pin)
  && (4 <=? String.length pin)%nat && (String.length pin <=? 8)%nat.

(* ================================================================== *)
(** ** AES-256-GCM, as [crypto] provides it *)
(* ================================================================== *)

(** The cipher is Node's, not this repository's.  With no associated data,
    GCM is counter mode followed by a tag computed over key, IV and
    ciphertext; deciphering recomputes the tag, compares it with the one
    given to [setAuthTag], and undoes the counter mode.  The two functions
    are taken as an interface; arguments are key, IV and data. *)
Class AesGcm : Type := mkAesGcm {
  gcm_ctr : list byte -> list byte -> list byte -> list byte;
  gcm_tag : list byte -> list byte -> list byte -> list byte
}.

Definition IV_LENGTH : nat := 16.
Definition AUTH_TAG_LENGTH : nat := 16.

(** [crypto.randomBytes(n)]: the next [n] bytes of the entropy source. *)
Definition randomBytes (n : nat) : M Proc (list byte) :=
  fun p =>
    (Ok (map (entropy p) (seq 0 n)),
     {| file := file p; writable := writable p;
        encryptionKey := encryptionKey p;
        CODE_ENCRYPTION_KEY := CODE_ENCRYPTION_KEY p;
        entropy := fun i => entropy p (i + n)%nat |}).

Definition set_encryptionKey (k : list byte) : M Proc unit :=
  modify (fun p =>
    {| file := file p; writable := writable p;
       encryptionKey := Some k;
       CODE_ENCRYPTION_KEY := CODE_ENCRYPTION_KEY p;
       entropy := entropy p |}).

(** An empty environment variable is falsy. *)
Definition getEncryptionKey : M Proc (list byte) :=
  cached <- gets encryptionKey ;;
  match cached with
  | Some k => ret k
  | None =>
      keyHex <- gets CODE_ENCRYPTION_KEY ;;
      match keyHex with
      | Some (String c h) =>
          set_encryptionKey (from_hex (String c h)) ;;;
          ret (from_hex (String c h))
      | _ =>
          k <- randomBytes 32 ;;
          set_encryptionKey k ;;;
          ret k
      end
  end.

(** [createCipheriv] and [createDecipheriv] refuse a key of another size. *)
Definition check_key (key : list byte) : M Proc unit :=
  if (List.length key =? 32)%nat then ret tt else throw InvalidKeyLength.

Definition encrypt `{AesGcm} (text : string) : M Proc string :=
  key <- getEncryptionKey ;;
  iv <- randomBytes IV_LENGTH ;;
  check_key key ;;;
  let encrypted := gcm_ctr key iv (utf8_encode text) in
  let authTag := gcm_tag key iv encrypted in
  ret (to_hex iv ++ to_hex authTag ++ to_hex encrypted)%string.

Definition decrypt `{AesGcm} (encryptedData : string) : M Proc string :=
  key <- getEncryptionKey ;;
  let iv := from_hex (slice 0 (IV_LENGTH * 2) encryptedData) in
  let authTag :=
    from_hex (slice (IV_LENGTH * 2) ((IV_LENGTH + AUTH_TAG_LENGTH) * 2)
                encryptedData) in
  let encrypted :=
    from_hex (slice_from ((IV_LENGTH + AUTH_TAG_LENGTH) * 2) encryptedData) in
  check_key key ;;;
  if list_eq_dec Byte.byte_eq_dec authTag (gcm_tag key iv encrypted)
  then ret (utf8_decode (gcm_ctr key iv encrypted))
  else throw AuthFailed.

(* ================================================================== *)
(** ** The code store ([src/code-storage.ts]) *)
(* ================================================================== *)

(** The [try] covers [existsSync], [readFileSync] and [JSON.parse]; whatever
    they throw is logged and the empty store is returned.  What parses is
    returned as it is, whatever its shape. *)
Definition loadStorage (p : Proc) : StorageValue :=
  match file p with
  | Stored storage => Storage storage
  | Misshapen => NotStorage
  | Missing | Unreadable | Corrupt => Storage {| codes := [] |}
  end.

(** [storage.codes.map], [storage.codes.find], [storage.codes.filter]: the
    array the method is called on.  On a value without an array [codes],
    reading the property ([null]) or calling the method ([undefined], a
    number, a string, a plain object) throws a TypeError. *)
Definition codes_array (storage : StorageValue) : M Proc (list UserCode) :=
  match storage with
  | Storage st => ret (codes st)
  | NotStorage => throw TypeError
  end.

(** The write error is logged and rethrown. *)
Definition saveStorage (storage : CodeStorage) : M Proc unit :=
  fun p =>
    if writable p
    then (Ok tt,
          {| file := Stored storage; writable := writable p;
             encryptionKey := encryptionKey p;
             CODE_ENCRYPTION_KEY := CODE_ENCRYPTION_KEY p;
             entropy := entropy p |})
    else (Throw WriteError, p).

(** An element of what [getAllCodes] returns. *)
Record CodeLabel : Type := mkCodeLabel {
  label_slot : Z;
  label_name : string
}.

(** What [getCode] returns when the slot is found. *)
Record CodeView : Type := mkCodeView {
  view_name : string;
  view_pin : string
}.

Definition getAllCodes : M Proc (list CodeLabel) :=
  storage <- gets loadStorage ;;
  records <- codes_array storage ;;
  ret (map (fun code => {| label_slot := slot code; label_name := name code |})
           records).

Definition getCode `{AesGcm} (s : Z) : M Proc (option CodeView) :=
  storage <- gets loadStorage ;;
  records <- codes_array storage ;;
  match find (fun c => slot c =? s) records with
  | None => ret None
  | Some code =>
      plain <- decrypt (pin code) ;;
      ret (Some {| view_name := name code; view_pin := plain |})
  end.

Fixpoint insert_by_slot (c : UserCode) (l : list UserCode) : list UserCode :=
  match l with
  | [] => [c]
  | x :: rest =>
      if slot c <=? slot x then c :: x :: rest
      else x :: insert_by_slot c rest
  end.

(** [codes.sort((a, b) => a.slot - b.slot)]: the sort is stable, and a stable
    sort has one result, the one insertion from the right computes. *)
Definition sort_by_slot (l : list UserCode) : list UserCode :=
  fold_right insert_by_slot [] l.

Definition saveCode `{AesGcm} (s : Z) (label p : string) : M Proc unit :=
  storage <- gets loadStorage ;;
  if negb (valid_pin p) then throw InvalidPin
  else
    records <- codes_array storage ;;
    let kept := filter (fun c => negb (slot c =? s)) records in
    blob <- encrypt p ;;
    let pushed := (kept ++ [{| slot := s; name := label; pin := blob |}])%list in
    saveStorage {| codes := sort_by_slot pushed |}.

Definition deleteCode (s : Z) : M Proc unit :=
  storage <- gets loadStorage ;;
  records <- codes_array storage ;;
  saveStorage {| codes := filter (fun c => negb (slot c =? s)) records |}.

(* ================================================================== *)
(** ** The driver lifecycle ([src/driver.ts]) *)
(* ================================================================== *)

(** The module variables [driverInstance], [reconnectTimeout] and
    [isReconnecting], with what they stand against: [pending] lists the
    reconnect timers the event loop holds, armed and neither fired nor
    cleared; [fresh] names the next timer or driver object.  [readied] is a
    ghost counter of the times [initializeDriver] got past 'Driver ready'. *)
Record Mgr : Type := mkMgr {
  driverInstance : option nat;
  reconnectTimeout : option nat;
  isReconnecting : bool;
  pending : list nat;
  fresh : nat;
  readied : nat
}.

Definition initial_mgr : Mgr :=
  {| driverInstance := None; reconnectTimeout := None; isReconnecting := false;
     pending := []; fresh := 0%nat; readied := 0%nat |}.

Record Config : Type := mkConfig {
  serialPort : option string
}.

(** [s.includes(pat)]. *)
Definition includes (s pat : string) : bool :=
  match String.index 0 pat s with
  | Some _ => true
  | None => false
  end.

(** [clearTimeout(t)], and what firing does to the timer itself. *)
Definition disarm (t : nat) (timers : list nat) : list nat :=
  List.remove Nat.eq_dec t timers.

(** The synchronous part of [scheduleReconnect]: the guard, the flag and
    [setTimeout].  The callback is [timer_fired] below. *)
Definition scheduleReconnect (s : Mgr) : Mgr :=
  match reconnectTimeout s with
  | Some _ => s
  | None =>
      {| driverInstance := driverInstance s;
         reconnectTimeout := Some (fresh s);
         isReconnecting := true;
         pending := pending s ++ [fresh s];
         fresh := S (fresh s);
         readied := readied s |}
  end.

(** The handler of the driver's 'error' event; [message] is
    [error.message]. *)
Definition on_error (retryOnFailure : bool) (message : option string)
    (s : Mgr) : Mgr :=
  match message with
  | Some m =>
      if includes m "serial port" || includes m "ENOENT"
      then if retryOnFailure && negb (isReconnecting s)
           then scheduleReconnect s else s
      else s
  | None => s
  end.

(** The handler of the 'driver ready' event. *)
Definition on_driver_ready (s : Mgr) : Mgr :=
  {| driverInstance := driverInstance s;
     reconnectTimeout := None;
     isReconnecting := false;
     pending := match reconnectTimeout s with
                | Some t => disarm t (pending s)
                | None => pending s
                end;
     fresh := fresh s;
     readied := readied s |}.

(** [new Driver(...)]. *)
Definition new_driver (s : Mgr) : nat * Mgr :=
  (fresh s,
   {| driverInstance := driverInstance s;
      reconnectTimeout := reconnectTimeout s;
      isReconnecting := isReconnecting s;
      pending := pending s;
      fresh := S (fresh s);
      readied := readied s |}).

(** The end of the [try] block: [driverInstance = driver; isReconnecting =
    false; return driver]. *)
Definition init_done (driver : nat) (s : Mgr) : Mgr :=
  {| driverInstance := Some driver;
     reconnectTimeout := reconnectTimeout s;
     isReconnecting := false;
     pending := pending s;
     fresh := fresh s;
     readied := S (readied s) |}.

(** The [catch] block of [initializeDriver], before the rethrow. *)
Definition init_catch (retryOnFailure : bool) (errorMsg : string)
    (s : Mgr) : Mgr :=
  if retryOnFailure && negb (isReconnecting s)
  then if includes errorMsg "timeout" || includes errorMsg "serial port"
          || includes errorMsg "ENOENT"
       then scheduleReconnect s else s
  else s.

(** What the transport does to one connection attempt. *)
Inductive StartOutcome : Type :=
| StartThrows (msg : string)  (* driver.start() rejects *)
| BecomesReady                (* started; 'driver ready' is emitted in time *)
| NeverReady.                 (* started; the 60 s race is lost *)

Definition DRIVER_READY_TIMEOUT : Z := 60000.
Definition RECONNECT_DELAY : Z := 5000.

Definition ready_timeout_message : string :=
  "Driver ready timeout after 60000ms".

(** One run of [initializeDriver] with nothing else interleaved. *)
Definition initializeDriver (config : Config) (retryOnFailure : bool)
    (outcome : StartOutcome) : M Mgr nat :=
  fun s =>
    match serialPort config with
    | Some (String _ _) =>
        let (driver, s1) := new_driver s in
        match outcome with
        | BecomesReady =>
            (Ok driver, init_done driver (on_driver_ready s1))
        | StartThrows msg =>
            (Throw (StartError msg), init_catch retryOnFailure msg s1)
        | NeverReady =>
            (Throw (StartError ready_timeout_message),
             init_catch retryOnFailure ready_timeout_message s1)
        end
    | _ => (Throw ConfigError, s)
    end.

(** The first statement of the timer callback, with the firing itself. *)
Definition timer_begin (t : nat) (s : Mgr) : Mgr :=
  {| driverInstance := driverInstance s;
     reconnectTimeout := None;
     isReconnecting := isReconnecting s;
     pending := disarm t (pending s);
     fresh := fresh s;
     readied := readied s |}.

(** [driverInstance = null]. *)
Definition drop_driver (s : Mgr) : Mgr :=
  {| driverInstance := None;
     reconnectTimeout := reconnectTimeout s;
     isReconnecting := isReconnecting s;
     pending := pending s;
     fresh := fresh s;
     readied := readied s |}.

(** The callback [scheduleReconnect] hands to [setTimeout], run when timer
    [t] fires: the old driver is destroyed when there is one, and whatever
    [initializeDriver] throws is logged and dropped. *)
Definition timer_fired (config : Config) (outcome : StartOutcome) (t : nat)
    (s : Mgr) : Mgr :=
  let s1 := timer_begin t s in
  let s2 := match driverInstance s1 with
            | Some _ => drop_driver s1
            | None => s1
            end in
  snd (initializeDriver config true outcome s2).

(** [shutdownDriver]; [destroyed] tells whether [destroy()] resolved. *)
Definition shutdownDriver (destroyed : bool) (s : Mgr) : Mgr :=
  let s1 := match reconnectTimeout s with
            | Some t => timer_begin t s
            | None => s
            end in
  let s2 := match driverInstance s1 with
            | Some _ => if destroyed then drop_driver s1 else s1
            | None => s1
            end in
  {| driverInstance := driverInstance s2;
     reconnectTimeout := reconnectTimeout s2;
     isReconnecting := false;
     pending := pending s2;
     fresh := fresh s2;
     readied := readied s2 |}.

(** Everything that can happen to the manager, one synchronous piece at a
    time, in any order the event loop allows. *)
Inductive mstep : Mgr -> Mgr -> Prop :=
| ms_error : forall retry message s, mstep s (on_error retry message s)
| ms_ready : forall s, mstep s (on_driver_ready s)
| ms_new : forall s, mstep s (snd (new_driver s))
| ms_done : forall driver s, mstep s (init_done driver s)
| ms_catch : forall retry errorMsg s, mstep s (init_catch retry errorMsg s)
| ms_fire : forall t s, In t (pending s) -> mstep s (timer_begin t s)
| ms_drop : forall s, mstep s (drop_driver s)
| ms_shutdown : forall destroyed s, mstep s (shutdownDriver destroyed s).

Inductive reachable : Mgr -> Prop :=
| reach_init : reachable initial_mgr
| reach_step : forall s s', reachable s -> mstep s s' -> reachable s'.

(** After the first attempt the process is driven by its timers alone: while
    one is pending it fires and the callback makes the next attempt, which
    meets the next outcome of the transport. *)
Fixpoint reconnect_loop (config : Config) (outcomes : list StartOutcome)
    (s : Mgr) : Mgr :=
  match outcomes with
  | [] => s
  | o :: rest =>
      match pending s with
      | t :: _ => reconnect_loop config rest (timer_fired config o t s)
      | [] => s
      end
  end.

(** [startDriver] of the server: one call of [initializeDriver(config,
    true)], its exception dropped, then the event loop. *)
Definition run_manager (config : Config) (outcomes : list StartOutcome) : Mgr :=
  match outcomes with
  | [] => initial_mgr
  | o :: rest =>
      reconnect_loop config rest (snd (initializeDriver config true o initial_mgr))
  end.

(* ================================================================== *)
(** ** The configuration file ([src/config.ts]) *)
(* ================================================================== *)

(** [interface SecurityKeys]: four keys, each a hex string. *)
Record SecurityKeys : Type := mkSecurityKeys {
  S2_AccessControl : string;
  S2_Authenticated : string;
  S2_Unauthenticated : string;
  S0_Legacy : string
}.

(** [interface Config] in full; [Config] above is the part of it that
    [initializeDriver] branches on. *)
Record StoredConfig : Type := mkStoredConfig {
  stored_serialPort : option string;
  securityKeys : option SecurityKeys
}.

Definition driver_config (config : StoredConfig) : Config :=
  {| serialPort := stored_serialPort config |}.

(** What [config.json] is to [loadConfig]: absent, present but unreadable or
    not JSON (both end in the [catch]), the serialisation of an object, or
    JSON for [null], for an array, or for a number, string or boolean.  The
    properties of an object have the types the interface [Config] declares;
    a [securityKeys] that is present and falsy counts as absent. *)
Inductive ConfigFileState : Type :=
| NoConfig
| BadConfig
| ConfigJson (config : StoredConfig)
| ConfigNull
| ConfigArray
| ConfigPrimitive.

(** What the variable [config] holds.  An array takes properties as an
    object does, and [JSON.stringify] writes its elements and none of its
    properties. *)
Inductive ConfigValue : Type :=
| ObjectValue (config : StoredConfig)
| ArrayValue (config : StoredConfig)
| NullValue
| PrimitiveValue.

(** The part of the process [config.ts] reads and writes. *)
Record CfgEnv : Type := mkCfgEnv {
  config_file : ConfigFileState;
  config_writable : bool;
  config_entropy : nat -> byte
}.

(** [crypto.randomBytes(16).toString('hex')]. *)
Definition generateSecureKey : M CfgEnv string :=
  fun env =>
    (Ok (to_hex (map (config_entropy env) (seq 0 16))),
     {| config_file := config_file env;
        config_writable := config_writable env;
        config_entropy := fun i => config_entropy env (16 + i)%nat |}).

(** The fields of the object literal are evaluated in source order. *)
Definition generateSecurityKeys : M CfgEnv SecurityKeys :=
  k1 <- generateSecureKey ;;
  k2 <- generateSecureKey ;;
  k3 <- generateSecureKey ;;
  k4 <- generateSecureKey ;;
  ret {| S2_AccessControl := k1; S2_Authenticated := k2;
         S2_Unauthenticated := k3; S0_Legacy := k4 |}.

(** [JSON.stringify(config, null, 2)] written to the file; the write error
    is logged and rethrown. *)
Definition stringify_config (config : ConfigValue) : ConfigFileState :=
  match config with
  | ObjectValue properties => ConfigJson properties
  | ArrayValue _ => ConfigArray
  | NullValue => ConfigNull
  | PrimitiveValue => ConfigPrimitive
  end.

Definition saveConfig (config : ConfigValue) : M CfgEnv unit :=
  fun env =>
    if config_writable env
    then (Ok tt,
          {| config_file := stringify_config config;
             config_writable := config_writable env;
             config_entropy := config_entropy env |})
    else (Throw WriteError, env).

(** Lines 42 to 56 of [loadConfig]: the empty object, or what [JSON.parse]
    made of the file. *)
Definition parse_config (file : ConfigFileState) : ConfigValue :=
  match file with
  | ConfigJson parsed => ObjectValue parsed
  | ConfigNull => NullValue
  | ConfigArray =>
      ArrayValue {| stored_serialPort := None; securityKeys := None |}
  | ConfigPrimitive => PrimitiveValue
  | NoConfig | BadConfig =>
      ObjectValue {| stored_serialPort := None; securityKeys := None |}
  end.

(** [config.securityKeys]: a TypeError on [null], [undefined] on a number,
    string or boolean. *)
Definition get_securityKeys (config : ConfigValue)
    : M CfgEnv (option SecurityKeys) :=
  match config with
  | ObjectValue properties | ArrayValue properties =>
      ret (securityKeys properties)
  | PrimitiveValue => ret None
  | NullValue => throw TypeError
  end.

(** [config.securityKeys = keys] and [config.serialPort = port]: the module
    is strict code, where the assignment to a property of a number, string
    or boolean throws a TypeError, as it does on [null]. *)
Definition set_securityKeys (keys : SecurityKeys) (config : ConfigValue)
    : M CfgEnv ConfigValue :=
  match config with
  | ObjectValue properties =>
      ret (ObjectValue {| stored_serialPort := stored_serialPort properties;
                          securityKeys := Some keys |})
  | ArrayValue properties =>
      ret (ArrayValue {| stored_serialPort := stored_serialPort properties;
                         securityKeys := Some keys |})
  | NullValue | PrimitiveValue => throw TypeError
  end.

Definition set_serialPort (port : string) (config : ConfigValue)
    : M CfgEnv ConfigValue :=
  match config with
  | ObjectValue properties =>
      ret (ObjectValue {| stored_serialPort := Some port;
                          securityKeys := securityKeys properties |})
  | ArrayValue properties =>
      ret (ArrayValue {| stored_serialPort := Some port;
                         securityKeys := securityKeys properties |})
  | NullValue | PrimitiveValue => throw TypeError
  end.

(** [isNewConfig] only chooses what is printed and is left out.  The right
    side of the assignment of line 61 is evaluated before the assignment is
    made. *)
Definition loadConfig : M CfgEnv ConfigValue :=
  file <- gets config_file ;;
  let config := parse_config file in
  present <- get_securityKeys config ;;
  match present with
  | Some _ => ret config
  | None =>
      keys <- generateSecurityKeys ;;
      config' <- set_securityKeys keys config ;;
      saveConfig config' ;;;
      ret config'
  end.

Definition updateSerialPort (port : string) : M CfgEnv unit :=
  config <- loadConfig ;;
  config' <- set_serialPort port config ;;
  saveConfig config'.

(** The four buffers [getSecurityKeysAsBuffers] hands to zwave-js, in the
    order of the fields; [config] stands for the properties of the object
    (or array) it is given. *)
Definition getSecurityKeysAsBuffers (config : StoredConfig)
    : option (list (list byte)) :=
  match securityKeys config with
  | None => None
  | Some keys =>
      Some [ from_hex (S2_AccessControl keys);
             from_hex (S2_Authenticated keys);
             from_hex (S2_Unauthenticated keys);
             from_hex (S0_Legacy keys) ]
  end.

(** A call a user of the configuration makes. *)
Inductive ConfigOp : Type :=
| CfgLoad
| CfgSetPort (port : string).

Definition run_config_op (op : ConfigOp) (env : CfgEnv) : CfgEnv :=
  match op with
  | CfgLoad => snd (loadConfig env)
  | CfgSetPort port => snd (updateSerialPort port env)
  end.

Definition run_config_ops (ops : list ConfigOp) (env : CfgEnv) : CfgEnv :=
  fold_left (fun e op => run_config_op op e) ops env.

(* ================================================================== *)
(** ** The code-length commands ([src/commands.ts]) *)
(* ================================================================== *)

(** What [parseInt] hands over: an integer or NaN. *)
Inductive JsNumber : Type :=
| Int (z : Z)
| NaN.

(** [a < b] and [a > b] on numbers: false as soon as one side is NaN. *)
Definition js_lt (a : JsNumber) (b : Z) : bool :=
  match a with
  | Int z => z <? b
  | NaN => false
  end.

Definition js_gt (a : JsNumber) (b : Z) : bool :=
  match a with
  | Int z => b <? z
  | NaN => false
  end.

(** The Configuration command-class API of a node. *)
Record ConfigurationCC (D : Type) : Type := mkConfigurationCC {
  config_get : Z -> D -> Reply (option Z) * D;
  config_set : Z -> JsNumber -> D -> Reply unit * D
}.

(** [driver.controller.nodes.get(nodeId)] followed by
    [node.commandClasses['Configuration']]: no node, a node without the
    command class, or the command class. *)
Definition ConfigNodes (D : Type) : Type :=
  Z -> option (option (ConfigurationCC D)).

(** How the two commands end when they throw. *)
Inductive LengthError : Type :=
| LengthNodeNotFound (nodeId : Z)
    (* new Error(`Node ${nodeId} not found`) *)
| LengthNoConfigurationCC (nodeId : Z)
    (* new Error(`Node ${nodeId} does not support Configuration command
       class`) *)
| LengthOutOfRange
    (* new Error('Code length must be between 4 and 8 digits') *)
| LengthCommandError (msg : string).
    (* what configCC.set rejects with *)

(** What was sent to the node. *)
Inductive ConfigEvent : Type :=
| EvConfigGet (parameter : Z)
| EvConfigSet (parameter : Z) (value : JsNumber).

(** Parameter 16 is the user code length. *)
Definition setUserCodeLength {D} (nodes : ConfigNodes D) (nodeId : Z)
    (length : JsNumber) (d : D) : (LengthError + unit) * (D * list ConfigEvent) :=
  match nodes nodeId with
  | None => (inl (LengthNodeNotFound nodeId), (d, []))
  | Some None => (inl (LengthNoConfigurationCC nodeId), (d, []))
  | Some (Some configCC) =>
      if js_lt length 4 || js_gt length 8
      then (inl LengthOutOfRange, (d, []))
      else
        match config_set configCC 16 length d with
        | (Answer _, d') => (inr tt, (d', [EvConfigSet 16 length]))
        | (Fails msg, d') =>
            (inl (LengthCommandError msg), (d', [EvConfigSet 16 length]))
        end
  end.

(** Everything after the node lookup is inside the [try]: a missing command
    class, an undefined value and a failed read all return [undefined]. *)
Definition getUserCodeLength {D} (nodes : ConfigNodes D) (nodeId : Z) (d : D)
    : (LengthError + option Z) * (D * list ConfigEvent) :=
  match nodes nodeId with
  | None => (inl (LengthNodeNotFound nodeId), (d, []))
  | Some None => (inr None, (d, []))
  | Some (Some configCC) =>
      match config_get configCC 16 d with
      | (Answer value, d') => (inr value, (d', [EvConfigGet 16]))
      | (Fails _, d') => (inr None, (d', [EvConfigGet 16]))
      end
  end.

(** A simulated lock that keeps the code length it is given; node 8. *)
Definition sim_config_cc : ConfigurationCC (option JsNumber) :=
  {| config_get := fun _ stored =>
       (Answer match stored with
               | Some (Int z) => Some z
               | _ => None
               end, stored);
     config_set := fun _ value _ => (Answer tt, Some value) |}.

Definition sim_config_nodes : ConfigNodes (option JsNumber) :=
  fun nodeId => if nodeId =? 8 then Some (Some sim_config_cc) else None.

(* ================================================================== *)
(** ** Simulated collaborators, for running the embedding *)
(* ================================================================== *)

(** A simulated lock.  Its state is the list of occupied slots.  It accepts
    a set command or silently ignores it, answers a status query or lets it
    time out, and reports a number of users or none. *)
Record SimPolicy : Type := mkSimPolicy {
  accepts : bool;
  get_times_out : Z -> bool;
  clear_fails : bool;
  users_count : option Z
}.

Definition sim_status (occupied : list Z) (s : Z) : Z :=
  if existsb (Z.eqb s) occupied then 1 else 0.

Definition sim_lock (pol : SimPolicy) : UserCodeCC (list Z) :=
  {| getCapabilities := fun occ => (Fails "User Code CC v1", occ);
     getUsersCount := fun occ => (Answer (users_count pol), occ);
     get := fun s occ =>
       if get_times_out pol s then (Fails "Timeout", occ)
       else (Answer (Some {| userIdStatus := sim_status occ s;
                             userCode := None |}), occ);
     set := fun s _ _ occ =>
       if accepts pol then (Answer tt, s :: occ) else (Answer tt, occ);
     clear := fun s occ =>
       if clear_fails pol then (Fails "Timeout", occ)
       else (Answer tt, filter (fun x => negb (x =? s)) occ) |}.

(** A network whose only node, 8, is the simulated lock. *)
Definition sim_driver (pol : SimPolicy) : Driver (list Z) :=
  {| nodes := fun nodeId =>
       if nodeId =? 8
       then Some {| userCodeCommandClass := Some (sim_lock pol) |}
       else None |}.

Definition accepting : SimPolicy :=
  {| accepts := true; get_times_out := fun _ => false;
     clear_fails := false; users_count := Some 3 |}.

Definition ignoring : SimPolicy :=
  {| accepts := false; get_times_out := fun _ => false;
     clear_fails := false; users_count := None |}.

Definition unreachable_lock : SimPolicy :=
  {| accepts := true; get_times_out := fun _ => true;
     clear_fails := true; users_count := None |}.

(** Slot 2 cannot be queried; everything else works. *)
Definition flaky : SimPolicy :=
  {| accepts := true; get_times_out := fun s => s =? 2;
     clear_fails := false; users_count := Some 4 |}.

Definition byte_xor (a b : byte) : byte :=
  match Byte.to_bits a, Byte.to_bits b with
  | (a0, (a1, (a2, (a3, (a4, (a5, (a6, a7))))))),
    (b0, (b1, (b2, (b3, (b4, (b5, (b6, b7))))))) =>
      Byte.of_bits
        (xorb a0 b0, (xorb a1 b1, (xorb a2 b2, (xorb a3 b3,
        (xorb a4 b4, (xorb a5 b5, (xorb a6 b6, xorb a7 b7)))))))
  end.

(** A stand-in for the cipher with the shape of GCM and none of its
    strength: the key stream repeats one byte, the tag is the first block
    of the padded ciphertext. *)
Definition sim_pad (key iv : list byte) : byte :=
  byte_xor (hd x00 key) (hd x00 iv).

#[global] Instance sim_gcm : AesGcm :=
  {| gcm_ctr := fun key iv data => map (byte_xor (sim_pad key iv)) data;
     gcm_tag := fun key iv data =>
       firstn 16 (data ++ repeat (sim_pad key iv) 16) |}.

(** A process with an empty, writable store, a 32-byte key in the
    environment, and an entropy source that counts. *)
Definition sim_key_hex : string :=
  "000102030405060708090a0b0c0d0e0f101112131415161718191a1b1c1d1e1f".

Definition sim_entropy (i : nat) : byte :=
  match Byte.of_N (N.of_nat i mod 256) with
  | Some b => b
  | None => x00
  end.

Definition sim_proc : Proc :=
  {| file := Missing; writable := true; encryptionKey := None;
     CODE_ENCRYPTION_KEY := Some sim_key_hex; entropy := sim_entropy |}.

Definition sim_world (p : Proc) : World (list Z) :=
  {| dev := []; proc := p; sent := [] |}.

(* ================================================================== *)
(** ** Definitions used to state the properties *)
(* ================================================================== *)

(** The device after steps 1, 2 and 4 of [setUserCode], with what the set
    command returned: the state the read-back of step 6 meets. *)
Definition after_set {D} (cc : UserCodeCC D) (slot : Z) (code : string)
    (d : D) : Reply unit * D :=
  set cc slot 1 code (snd (get cc slot (snd (getCapabilities cc d)))).

(** What a successful or rejected [setUserCode] has sent. *)
Definition set_code_events (slot : Z) (code : string) : list Event :=
  [EvGetCapabilities; EvGet slot; EvSet slot 1 code; EvSleep 5000; EvGet slot].

(** The outcomes the specification names for a set-code attempt. *)
Inductive VerifiedSetResult : Type :=
| Confirmed
| RejectedUnknownReason
| RejectedLikelyDuplicate
| DeviceUnreachable.

(** The specification's test for a likely duplicate: the store holds this
    PIN value in another slot. *)
Definition holds_pin_elsewhere `{AesGcm} (p : Proc) (s : Z) (code : string)
    : bool :=
  existsb
    (fun c =>
       negb (slot c =? s)
       && match fst (decrypt (pin c) p) with
          | Ok plain => String.eqb plain code
          | Throw _ => false
          end)
    match loadStorage p with
    | Storage st => codes st
    | NotStorage => []
    end.

(** Step 5 of the specification's Set User Code, in its words. *)
Definition spec_classify (duplicate : bool)
    (reread : Reply (option UserCodeData)) : VerifiedSetResult :=
  match reread with
  | Fails _ => DeviceUnreachable
  | Answer v =>
      if not_occupied v
      then if duplicate then RejectedLikelyDuplicate
           else RejectedUnknownReason
      else Confirmed
  end.

(** The store of the specification's duplicate scenario: slot 5 holds PIN
    1111. *)
Definition sim_proc_1111_in_5 : Proc :=
  snd (saveCode 5 "Guest" "1111" sim_proc).


(** The same world with another process state. *)
Definition with_proc {D} (p : Proc) (w : World D) : World D :=
  {| dev := dev w; proc := p; sent := sent w |}.

(** The key [getEncryptionKey] hands out in process state [p]. *)
Definition process_key (p : Proc) : list byte :=
  match encryptionKey p with
  | Some k => k
  | None =>
      match CODE_ENCRYPTION_KEY p with
      | Some (String c h) => from_hex (String c h)
      | _ => map (entropy p) (seq 0 32)
      end
  end.

(** Byte [i] of a buffer with the bits of [mask] flipped. *)
Fixpoint flip_byte (i : nat) (mask : byte) (buf : list byte) {struct buf}
    : list byte :=
  match buf, i with
  | [], _ => []
  | b :: rest, O => byte_xor b mask :: rest
  | b :: rest, S i' => b :: flip_byte i' mask rest
  end.

(** What encrypting 4321 in the simulated process gives and leaves. *)
Definition sim_blob_4321 : string :=
  match fst (encrypt "4321" sim_proc) with
  | Ok blob => blob
  | Throw _ => ""
  end.

Definition sim_proc_after_encrypt : Proc := snd (encrypt "4321" sim_proc).

(** The answers the lock gives when the slots are queried one after the
    other, failures included, and the device they leave. *)
Fixpoint poll {D} (cc : UserCodeCC D) (slots : list Z) (d : D)
    : list (Z * Reply (option UserCodeData)) * D :=
  match slots with
  | [] => ([], d)
  | s :: rest =>
      let (r, d1) := get cc s d in
      let (answers, d2) := poll cc rest d1 in
      ((s, r) :: answers, d2)
  end.

(** The slots whose answer carries a status other than 0 (Available), in
    query order, each with that status. *)
Fixpoint entries_of (answers : list (Z * Reply (option UserCodeData)))
    : list CodeEntry :=
  match answers with
  | [] => []
  | (s, Answer (Some data)) :: rest =>
      if userIdStatus data =? 0 then entries_of rest
      else {| entry_slot := s; entry_status := userIdStatus data |}
             :: entries_of rest
  | _ :: rest => entries_of rest
  end.

(** A sequence of [saveCode] calls, each given slot, label and PIN; the
    first exception ends it. *)
Fixpoint save_all `{AesGcm} (calls : list (Z * string * string))
    : M Proc unit :=
  match calls with
  | [] => ret tt
  | (s, label, text) :: rest => saveCode s label text ;;; save_all rest
  end.

(** What a listing shows of a record, and of a [saveCode] call. *)
Definition label_of (c : UserCode) : CodeLabel :=
  {| label_slot := slot c; label_name := name c |}.

Definition call_label (call : Z * string * string) : CodeLabel :=
  {| label_slot := fst (fst call); label_name := snd (fst call) |}.

(** Two sequences of [saveCode] calls with the same slots and labels and
    different PINs. *)
Definition sim_calls_a : list (Z * string * string) :=
  [(3, "Guest", "4321"); (1, "Owner", "000000")].

Definition sim_calls_b : list (Z * string * string) :=
  [(3, "Guest", "98765"); (1, "Owner", "13572468")].

(** The variable [reconnectTimeout] holds the one timer that is armed, and
    there is none when it is null. *)
Definition timers_ok (s : Mgr) : Prop :=
  pending s = match reconnectTimeout s with
              | Some t => [t]
              | None => []
              end.

Definition sim_config : Config := {| serialPort := Some "/dev/ttyACM0" |}.

(** The dongle is not there: [driver.start()] rejects. *)
Definition unplugged : StartOutcome :=
  StartThrows "Failed to open the serial port: ENOENT".

(** The process with another store file. *)
Definition with_file (f : FileState) (p : Proc) : Proc :=
  {| file := f; writable := writable p;
     encryptionKey := encryptionKey p;
     CODE_ENCRYPTION_KEY := CODE_ENCRYPTION_KEY p;
     entropy := entropy p |}.

(** A call a user of the code store makes. *)
Inductive StoreOp : Type :=
| OpSave (s : Z) (label text : string)
| OpDelete (s : Z).

Definition run_op `{AesGcm} (op : StoreOp) : M Proc unit :=
  match op with
  | OpSave s label text => saveCode s label text
  | OpDelete s => deleteCode s
  end.

(** Calls made one after the other, each on its own: an exception ends the
    call that threw it and the next call is made all the same. *)
Fixpoint run_ops `{AesGcm} (ops : list StoreOp) (p : Proc) : Proc :=
  match ops with
  | [] => p
  | op :: rest => run_ops rest (snd (run_op op p))
  end.


(** The slots of the records, in store order. *)
Definition slots_of (l : list UserCode) : list Z := map slot l.

(** Calls for the simulated process: two saves, a save with a PIN that is
    too short, a delete and a save over an occupied slot. *)
Definition sim_ops : list StoreOp :=
  [OpSave 3 "Guest" "4321"; OpSave 1 "Owner" "000000"; OpSave 3 "Kid" "12";
   OpDelete 1; OpSave 3 "Guest" "2468"].

(** The process with a key held in [encryptionKey]. *)
Definition with_key (k : list byte) (p : Proc) : Proc :=
  {| file := file p; writable := writable p;
     encryptionKey := Some k;
     CODE_ENCRYPTION_KEY := CODE_ENCRYPTION_KEY p;
     entropy := entropy p |}.

(** The error [saveCode] ends in when it does not succeed: the checks come
    in this order. *)
Definition saveCode_error (text : string) (p : Proc) : Error :=
  if negb (valid_pin text) then InvalidPin
  else match loadStorage p with
       | NotStorage => TypeError
       | Storage _ =>
           if negb (List.length (process_key p) =? 32)%nat
           then InvalidKeyLength
           else WriteError
       end.

(** The store the functions work on when [loadStorage] returns one. *)
Definition stored (p : Proc) : CodeStorage :=
  match file p with
  | Stored storage => storage
  | _ => {| codes := [] |}
  end.


(** The simulated process under another key, one with which the stand-in
    cipher changes every byte it is given. *)
Definition sim_proc_keyed : Proc :=
  {| file := Missing; writable := true; encryptionKey := None;
     CODE_ENCRYPTION_KEY :=
       Some "a5a6a7a8a9aaabacadaeafb0b1b2b3b4b5b6b7b8b9babbbcbdbebfc0c1c2c3c4";
     entropy := sim_entropy |}.

(** A store file with two records under slot 3 and slot 9 before slot 1, as
    an editor could leave it; and a process whose environment key is too
    short. *)
Definition sim_proc_edited : Proc :=
  with_file
    (Stored {| codes := [ {| slot := 3; name := "A"; pin := "00" |};
                          {| slot := 9; name := "B"; pin := "01" |};
                          {| slot := 3; name := "C"; pin := "02" |};
                          {| slot := 1; name := "D"; pin := "03" |} ] |})
    sim_proc.


Definition sim_proc_corrupt : Proc := with_file Corrupt sim_proc.

(** [withDriver(config, fn)]: [initializeDriver(config)] with its default
    [retryOnFailure = true], outside the [try]; then [fn(driver)], whose
    outcome [fn] gives, and [shutdownDriver()] in the [finally]. *)
Definition withDriver {T : Type} (config : Config) (outcome : StartOutcome)
    (fn : nat -> Res T) (destroyed : bool) : M Mgr T :=
  fun s =>
    match initializeDriver config true outcome s with
    | (Ok driver, s1) => (fn driver, shutdownDriver destroyed s1)
    | (Throw e, s1) => (Throw e, s1)
    end.

(** The test both [catch] blocks make on an error message. *)
Definition retryable (errorMsg : string) : bool :=
  includes errorMsg "timeout" || includes errorMsg "serial port"
  || includes errorMsg "ENOENT".

(** The message [initializeDriver] fails with, if it fails. *)
Definition failure_message (outcome : StartOutcome) : option string :=
  match outcome with
  | StartThrows msg => Some msg
  | NeverReady => Some ready_timeout_message
  | BecomesReady => None
  end.

(** No timer armed and no reconnection under way. *)
Definition idle (s : Mgr) : Prop :=
  reconnectTimeout s = None /\ pending s = [] /\ isReconnecting s = false.

(** A fresh installation: no [config.json] yet. *)
Definition sim_env : CfgEnv :=
  {| config_file := NoConfig; config_writable := true;
     config_entropy := sim_entropy |}.

(** The configuration file holds these security keys. *)
Definition holds_keys (keys : SecurityKeys) (env : CfgEnv) : Prop :=
  exists config,
    config_file env = ConfigJson config /\ securityKeys config = Some keys.

(** A [config.json] that holds [[]]. *)
Definition sim_env_array : CfgEnv :=
  {| config_file := ConfigArray; config_writable := true;
     config_entropy := sim_entropy |}.

(** Sixteen bytes of the random source, from position [a]. *)
Definition entropy_block (env : CfgEnv) (a : nat) : list byte :=
  map (config_entropy env) (seq a 16).

(** The four keys made of the next 64 random bytes. *)
Definition keys_drawn (env : CfgEnv) : SecurityKeys :=
  {| S2_AccessControl := to_hex (entropy_block env 0);
     S2_Authenticated := to_hex (entropy_block env 16);
     S2_Unauthenticated := to_hex (entropy_block env 32);
     S0_Legacy := to_hex (entropy_block env 48) |}.

(** The process after [n] random bytes were drawn. *)
Definition drawn (n : nat) (env : CfgEnv) : CfgEnv :=
  {| config_file := config_file env;
     config_writable := config_writable env;
     config_entropy := fun i => config_entropy env (n + i)%nat |}.

(* ================================================================== *)
(** * Properties of the user-code workflow *)
(* ================================================================== *)

Ltac run_monad :=
  cbv beta delta [bind try_ call sleep ret throw gets modify] in *;
  cbn [dev proc sent fst snd] in *.

Section UserCodeWorkflow.

Context {D : Type}.
Variable driver : Driver D.
Variables nodeId slot : Z.
Variable code : string.

(** What one run of [setUserCode] amounts to once the node and its command
    class are found. *)
Lemma setUserCode_run (node : ZWaveNode D) (cc : UserCodeCC D) (w : World D) :
  nodes driver nodeId = Some node ->
  userCodeCommandClass node = Some cc ->
  setUserCode driver nodeId slot code w =
    match after_set cc slot code (dev w) with
    | (Fails msg, d3) =>
        (Throw (CommandError msg),
         {| dev := d3; proc := proc w;
            sent := sent w ++ [EvGetCapabilities; EvGet slot; EvSet slot 1 code] |})
    | (Answer _, d3) =>
        let w' := {| dev := snd (get cc slot d3); proc := proc w;
                     sent := sent w ++ set_code_events slot code |} in
        match fst (get cc slot d3) with
        | Fails msg => (Throw (CommandError msg), w')
        | Answer v =>
            if not_occupied v
            then (Throw (LockRejected slot (status_of v)), w')
            else (Ok tt, w')
        end
    end.
Proof.
  intros Hn Hc. unfold setUserCode, after_set, set_code_events.
  rewrite Hn, Hc. run_monad.
  destruct (getCapabilities cc (dev w)) as [r1 d1].
  destruct r1; cbn [dev proc sent fst snd thrown];
    (destruct (get cc slot d1) as [r2 d2];
     destruct r2; cbn [dev proc sent fst snd thrown];
     (destruct (set cc slot 1 code d2) as [[u | e3] d3];
      cbn [dev proc sent fst snd thrown]; rewrite <- ?app_assoc; cbn [app];
      [ destruct (get cc slot d3) as [[v | e4] d4];
        cbn [dev proc sent fst snd thrown]; rewrite <- ?app_assoc; cbn [app];
        [ destruct (not_occupied v); reflexivity | reflexivity ]
      | reflexivity ])).
Qed.

End UserCodeWorkflow.

Lemma not_occupied_false (v : option UserCodeData) :
  not_occupied v = false <-> exists data, v = Some data /\ userIdStatus data = 1.
Proof.
  unfold not_occupied, status_of. destruct v as [data |]; cbn.
  - rewrite negb_false_iff, Z.eqb_eq. split.
    + intros H. exists data. split; [reflexivity | exact H].
    + intros [data' [E H]]. inversion E. subst. exact H.
  - split; [discriminate | intros [data' [E _]]; discriminate].
Qed.

Lemma not_occupied_true (v : option UserCodeData) :
  not_occupied v = true <-> status_of v <> Some 1.
Proof.
  unfold not_occupied, status_of. destruct v as [data |]; cbn.
  - rewrite negb_true_iff, Z.eqb_neq. split.
    + intros H E. inversion E. contradiction.
    + intros H E. apply H. rewrite E. reflexivity.
  - split; [discriminate | reflexivity].
Qed.

(** C1, as stated, fails.  On a slot that is already occupied, a lock that
    silently ignores the set command is confirmed: the read-back answers
    status 1 as it did before, [setUserCode] returns normally, and the
    device is as it was, the code asked for never stored. *)
Lemma setUserCode_confirms_ignored_set :
  let w := {| dev := [3]; proc := sim_proc; sent := [] |} in
  let run := setUserCode (sim_driver ignoring) 8 3 "4321" w in
  set (sim_lock ignoring) 3 1 "4321" (dev w) = (Answer tt, dev w) /\
  fst run = Ok tt /\
  dev (snd run) = dev w.
Proof. cbv zeta. repeat split; reflexivity. Qed.

(** C1, amended.  [setUserCode] returns normally only when, after the set
    command and the 5000 ms wait, the read-back of the slot answered status
    1 (Occupied); and whenever that read-back answers anything else (status
    0, any other status, or no data), the run ends in the rejection error,
    not in success.  The read-back is the only test: when the set command
    was acknowledged and left the device as it was, the run ends in success
    exactly when the slot answers status 1 in that unchanged state, so an
    ignored command is rejected on a slot that was not occupied and
    confirmed on one that was. *)
Theorem setUserCode_confirms_only_after_readback
    (D : Type) (driver : Driver D) (nodeId slot : Z) (code : string)
    (w : World D) :
  (forall w',
      setUserCode driver nodeId slot code w = (Ok tt, w') ->
      exists node cc d3 v,
        nodes driver nodeId = Some node /\
        userCodeCommandClass node = Some cc /\
        after_set cc slot code (dev w) = (Answer tt, d3) /\
        get cc slot d3 = (Answer (Some v), dev w') /\
        userIdStatus v = 1 /\
        sent w' = (sent w ++ set_code_events slot code)%list)
  /\
  (forall node cc d3 v d4,
      nodes driver nodeId = Some node ->
      userCodeCommandClass node = Some cc ->
      after_set cc slot code (dev w) = (Answer tt, d3) ->
      get cc slot d3 = (Answer v, d4) ->
      status_of v <> Some 1 ->
      fst (setUserCode driver nodeId slot code w)
        = Throw (LockRejected slot (status_of v)))
  /\
  (forall node cc,
      nodes driver nodeId = Some node ->
      userCodeCommandClass node = Some cc ->
      after_set cc slot code (dev w) = (Answer tt, dev w) ->
      (fst (setUserCode driver nodeId slot code w) = Ok tt <->
       exists v, fst (get cc slot (dev w)) = Answer (Some v) /\
                 userIdStatus v = 1)).
Proof.
  split; [| split].
  - intros w' Hrun.
    destruct (nodes driver nodeId) as [node |] eqn:Hn;
      [| unfold setUserCode in Hrun; rewrite Hn in Hrun; discriminate].
    destruct (userCodeCommandClass node) as [cc |] eqn:Hc;
      [| unfold setUserCode in Hrun; rewrite Hn, Hc in Hrun; discriminate].
    rewrite (@setUserCode_run _ driver nodeId slot code node cc w Hn Hc) in Hrun.
    destruct (after_set cc slot code (dev w)) as [[u | e] d3] eqn:Hset;
      [| discriminate].
    destruct (get cc slot d3) as [[v | e] d4] eqn:Hget;
      cbn [fst snd] in Hrun; [| discriminate].
    destruct (not_occupied v) eqn:Hocc; [discriminate |].
    apply not_occupied_false in Hocc. destruct Hocc as [data [Hv Hst]].
    inversion Hrun; subst. destruct u.
    exists node, cc, d3, data. cbn [dev sent]. repeat split; assumption.
  - intros node cc d3 v d4 Hn Hc Hset Hget Hst.
    rewrite (@setUserCode_run _ driver nodeId slot code node cc w Hn Hc), Hset, Hget.
    cbn [fst snd]. apply not_occupied_true in Hst. rewrite Hst. reflexivity.
  - intros node cc Hn Hc Hset.
    rewrite (@setUserCode_run _ driver nodeId slot code node cc w Hn Hc), Hset.
    destruct (fst (get cc slot (dev w))) as [v | msg]; cbn [fst].
    + destruct (not_occupied v) eqn:Hocc; cbn [fst].
      * split; [discriminate |]. intros [data [Hv Hst]].
        assert (Hfalse : not_occupied v = false)
          by (apply not_occupied_false; exists data; split;
              [congruence | exact Hst]).
        congruence.
      * split; [| reflexivity]. intros _.
        apply not_occupied_false in Hocc. destruct Hocc as [data [Hv Hst]].
        exists data. split; [congruence | exact Hst].
    + split; [discriminate | intros [data [Hv _]]; discriminate].
Qed.

(** The accepting simulated lock is confirmed after the read-back, the
    silently ignoring one is rejected with status 0 on the empty slot 3 and
    confirmed on the occupied slot 3. *)
Lemma setUserCode_confirms_only_after_readback_witness :
  (exists node cc d3 v,
      nodes (sim_driver accepting) 8 = Some node /\
      userCodeCommandClass node = Some cc /\
      after_set cc 3 "4321" [] = (Answer tt, d3) /\
      get cc 3 d3 = (Answer (Some v), [3]) /\
      userIdStatus v = 1 /\
      set_code_events 3 "4321" = ([] ++ set_code_events 3 "4321")%list)
  /\
  fst (setUserCode (sim_driver ignoring) 8 3 "4321" (sim_world sim_proc))
    = Throw (LockRejected 3 (Some 0))
  /\
  fst (setUserCode (sim_driver ignoring) 8 3 "4321"
         {| dev := [3]; proc := sim_proc; sent := [] |}) = Ok tt.
Proof.
  split; [| split].
  - apply (proj1 (setUserCode_confirms_only_after_readback
                    (sim_driver accepting) 8 3 "4321" (sim_world sim_proc))
                 {| dev := [3]; proc := sim_proc;
                    sent := set_code_events 3 "4321" |}).
    reflexivity.
  - apply (proj1 (proj2 (setUserCode_confirms_only_after_readback
                    (sim_driver ignoring) 8 3 "4321" (sim_world sim_proc)))
                 {| userCodeCommandClass := Some (sim_lock ignoring) |}
                 (sim_lock ignoring) []
                 (Some {| userIdStatus := 0; userCode := None |}) []);
      try reflexivity.
    cbn. discriminate.
  - apply (proj2 (proj2 (setUserCode_confirms_only_after_readback
                    (sim_driver ignoring) 8 3 "4321"
                    {| dev := [3]; proc := sim_proc; sent := [] |}))
                 {| userCodeCommandClass := Some (sim_lock ignoring) |}
                 (sim_lock ignoring) eq_refl eq_refl eq_refl).
    exists {| userIdStatus := 1; userCode := None |}.
    split; reflexivity.
Defined.

(** C2, as stated, fails.  In the specification's scenario (PIN 1111 set on
    slot 2 of a silently ignoring lock) the store that holds 1111 in slot 5
    and the empty store lead [setUserCode] to the very same result, so no
    reading of its results gives RejectedLikelyDuplicate for the one and
    RejectedUnknownReason for the other. *)
Lemma setUserCode_duplicate_not_diagnosed :
  holds_pin_elsewhere sim_proc_1111_in_5 2 "1111" = true /\
  holds_pin_elsewhere sim_proc 2 "1111" = false /\
  ~ exists classify : Res unit -> VerifiedSetResult,
      classify (fst (setUserCode (sim_driver ignoring) 8 2 "1111"
                       (sim_world sim_proc_1111_in_5)))
        = spec_classify (holds_pin_elsewhere sim_proc_1111_in_5 2 "1111")
            (Answer (Some {| userIdStatus := 0; userCode := None |}))
      /\
      classify (fst (setUserCode (sim_driver ignoring) 8 2 "1111"
                       (sim_world sim_proc)))
        = spec_classify (holds_pin_elsewhere sim_proc 2 "1111")
            (Answer (Some {| userIdStatus := 0; userCode := None |})).
Proof.
  assert (Hdup : holds_pin_elsewhere sim_proc_1111_in_5 2 "1111" = true)
    by (vm_compute; reflexivity).
  assert (Hnone : holds_pin_elsewhere sim_proc 2 "1111" = false)
    by (vm_compute; reflexivity).
  split; [exact Hdup |]. split; [exact Hnone |].
  intros [classify [H1 H2]]. rewrite Hdup in H1. rewrite Hnone in H2.
  assert (Hsame :
    fst (setUserCode (sim_driver ignoring) 8 2 "1111"
           (sim_world sim_proc_1111_in_5))
    = fst (setUserCode (sim_driver ignoring) 8 2 "1111" (sim_world sim_proc)))
    by reflexivity.
  rewrite Hsame in H1. rewrite H1 in H2. cbn in H2. discriminate.
Qed.

(** C2, amended.  Once the set command has gone through, a read-back that
    answers anything but status 1 ends [setUserCode] in the one rejection
    error, which carries the slot and the status read, whatever the code
    store holds; a read-back that fails is rethrown as the transport's own
    error, which is not the rejection error. *)
Theorem setUserCode_rejection_ignores_store
    (D : Type) (driver : Driver D) (nodeId slot : Z) (code : string)
    (node : ZWaveNode D) (cc : UserCodeCC D) (w : World D) (d3 : D) :
  nodes driver nodeId = Some node ->
  userCodeCommandClass node = Some cc ->
  after_set cc slot code (dev w) = (Answer tt, d3) ->
  (forall v d4,
      get cc slot d3 = (Answer v, d4) ->
      status_of v <> Some 1 ->
      forall p : Proc,
        fst (setUserCode driver nodeId slot code (with_proc p w))
          = Throw (LockRejected slot (status_of v)))
  /\
  (forall msg d4,
      get cc slot d3 = (Fails msg, d4) ->
      forall p : Proc,
        fst (setUserCode driver nodeId slot code (with_proc p w))
          = Throw (CommandError msg)
        /\ forall st, CommandError msg <> LockRejected slot st).
Proof.
  intros Hn Hc Hset. split.
  - intros v d4 Hget Hst p.
    rewrite (@setUserCode_run _ driver nodeId slot code node cc _ Hn Hc).
    cbn [with_proc dev]. rewrite Hset, Hget. cbn [fst snd].
    apply not_occupied_true in Hst. rewrite Hst. reflexivity.
  - intros msg d4 Hget p. split; [| discriminate].
    rewrite (@setUserCode_run _ driver nodeId slot code node cc _ Hn Hc).
    cbn [with_proc dev]. rewrite Hset, Hget. reflexivity.
Qed.

(** On the ignoring lock the rejection is the same under both stores; on the
    lock that cannot be reached the time-out comes through. *)
Lemma setUserCode_rejection_ignores_store_witness :
  fst (setUserCode (sim_driver ignoring) 8 2 "1111"
         (with_proc sim_proc_1111_in_5 (sim_world sim_proc)))
    = Throw (LockRejected 2 (Some 0))
  /\
  fst (setUserCode (sim_driver unreachable_lock) 8 2 "1111"
         (with_proc sim_proc_1111_in_5 (sim_world sim_proc)))
    = Throw (CommandError "Timeout").
Proof.
  split.
  - apply (proj1 (@setUserCode_rejection_ignores_store _
                    (sim_driver ignoring) 8 2 "1111"
                    {| userCodeCommandClass := Some (sim_lock ignoring) |}
                    (sim_lock ignoring) (sim_world sim_proc) []
                    eq_refl eq_refl eq_refl)
                 (Some {| userIdStatus := 0; userCode := None |}) []).
    + reflexivity.
    + cbn. discriminate.
  - apply (proj2 (@setUserCode_rejection_ignores_store _
                    (sim_driver unreachable_lock) 8 2 "1111"
                    {| userCodeCommandClass := Some (sim_lock unreachable_lock) |}
                    (sim_lock unreachable_lock) (sim_world sim_proc) [2]
                    eq_refl eq_refl eq_refl)
                 "Timeout" [2]).
    reflexivity.
Defined.

(* ================================================================== *)
(** * Properties of buffers and of the cipher layer *)
(* ================================================================== *)

Lemma hex_pair_decodes (b : byte) :
  match hex_value (hex_digit (Byte.to_N b / 16)),
        hex_value (hex_digit (Byte.to_N b mod 16)) with
  | Some h, Some l => Byte.of_N (16 * h + l)
  | _, _ => None
  end = Some b.
Proof. destruct b; vm_compute; reflexivity. Qed.

Lemma from_hex_to_hex (buf : list byte) : from_hex (to_hex buf) = buf.
Proof.
  induction buf as [| b rest IH]; [reflexivity |].
  cbn [to_hex from_hex]. pose proof (hex_pair_decodes b) as Hb.
  destruct (hex_value (hex_digit (Byte.to_N b / 16))) as [h |]; [| discriminate].
  destruct (hex_value (hex_digit (Byte.to_N b mod 16))) as [l |]; [| discriminate].
  rewrite Hb, IH. reflexivity.
Qed.

Lemma to_hex_app (a b : list byte) :
  to_hex (a ++ b) = (to_hex a ++ to_hex b)%string.
Proof.
  induction a as [| x a IH]; [reflexivity |].
  cbn [app to_hex String.append]. rewrite IH. reflexivity.
Qed.

Lemma to_hex_length (buf : list byte) :
  String.length (to_hex buf) = (2 * List.length buf)%nat.
Proof.
  induction buf as [| b rest IH]; [reflexivity |].
  cbn [to_hex String.length List.length]. rewrite IH. lia.
Qed.

Lemma str_take_app (a b : string) :
  str_take (String.length a) (a ++ b)%string = a.
Proof.
  induction a as [| c a IH]; cbn [String.length String.append str_take].
  - destruct b; reflexivity.
  - rewrite IH. reflexivity.
Qed.

Lemma str_drop_app (a b : string) :
  str_drop (String.length a) (a ++ b)%string = b.
Proof.
  induction a as [| c a IH]; cbn [String.length String.append str_drop].
  - destruct b; reflexivity.
  - exact IH.
Qed.

(** How [decrypt] cuts a blob laid out as IV, tag, payload. *)
Lemma blob_slices (iv tag payload : list byte) :
  List.length iv = IV_LENGTH ->
  List.length tag = AUTH_TAG_LENGTH ->
  let blob := (to_hex iv ++ to_hex tag ++ to_hex payload)%string in
  from_hex (slice 0 (IV_LENGTH * 2) blob) = iv /\
  from_hex (slice (IV_LENGTH * 2) ((IV_LENGTH + AUTH_TAG_LENGTH) * 2) blob) = tag /\
  from_hex (slice_from ((IV_LENGTH + AUTH_TAG_LENGTH) * 2) blob) = payload.
Proof.
  intros Hiv Htag blob. unfold slice, slice_from.
  assert (Li : String.length (to_hex iv) = (IV_LENGTH * 2)%nat)
    by (rewrite to_hex_length; lia).
  assert (Lt : String.length (to_hex tag) = (AUTH_TAG_LENGTH * 2)%nat)
    by (rewrite to_hex_length; lia).
  assert (Hdrop : str_drop (IV_LENGTH * 2) blob
                  = (to_hex tag ++ to_hex payload)%string)
    by (rewrite <- Li; apply str_drop_app).
  repeat split.
  - replace (IV_LENGTH * 2 - 0)%nat with (String.length (to_hex iv)) by lia.
    cbn [str_drop]. unfold blob. rewrite str_take_app. apply from_hex_to_hex.
  - rewrite Hdrop.
    replace ((IV_LENGTH + AUTH_TAG_LENGTH) * 2 - IV_LENGTH * 2)%nat
      with (String.length (to_hex tag)) by lia.
    rewrite str_take_app. apply from_hex_to_hex.
  - assert (Hsplit : forall n m s, str_drop (n + m) s = str_drop m (str_drop n s)).
    { induction n as [| n IHn]; intros m s; [reflexivity |].
      destruct s as [| c s]; cbn [Nat.add str_drop].
      - destruct m; reflexivity.
      - apply IHn. }
    replace ((IV_LENGTH + AUTH_TAG_LENGTH) * 2)%nat
      with (IV_LENGTH * 2 + AUTH_TAG_LENGTH * 2)%nat by lia.
    rewrite Hsplit, Hdrop, <- Lt, str_drop_app. apply from_hex_to_hex.
Qed.

Lemma getEncryptionKey_run (p : Proc) :
  exists p',
    getEncryptionKey p = (Ok (process_key p), p') /\
    encryptionKey p' = Some (process_key p) /\
    file p' = file p /\ writable p' = writable p /\
    CODE_ENCRYPTION_KEY p' = CODE_ENCRYPTION_KEY p /\
    (forall k, encryptionKey p = Some k -> p' = p).
Proof.
  unfold getEncryptionKey, process_key, set_encryptionKey, randomBytes.
  run_monad.
  destruct (encryptionKey p) as [k |] eqn:Hk.
  - exists p. repeat split; try assumption. 
  - destruct (CODE_ENCRYPTION_KEY p) as [[| c h] |] eqn:He;
      eexists; repeat split; cbn; try eassumption; try reflexivity;
      intros k Hk'; discriminate.
Qed.

Lemma process_key_cached (p : Proc) (k : list byte) :
  encryptionKey p = Some k -> process_key p = k.
Proof. unfold process_key. intros ->. reflexivity. Qed.

Lemma xorb_fixed (b m : bool) : xorb b m = b -> m = false.
Proof. destruct b, m; cbn; congruence. Qed.

Lemma byte_xor_fixed (b mask : byte) : byte_xor b mask = b -> mask = x00.
Proof.
  unfold byte_xor. intros H.
  rewrite <- (Byte.of_bits_to_bits mask).
  destruct (Byte.to_bits b)
    as [b0 [b1 [b2 [b3 [b4 [b5 [b6 b7]]]]]]] eqn:Eb.
  destruct (Byte.to_bits mask)
    as [m0 [m1 [m2 [m3 [m4 [m5 [m6 m7]]]]]]] eqn:Em.
  apply (f_equal Byte.to_bits) in H.
  rewrite Byte.to_bits_of_bits, Eb in H.
  injection H as H0 H1 H2 H3 H4 H5 H6 H7.
  apply xorb_fixed in H0, H1, H2, H3, H4, H5, H6, H7. subst.
  reflexivity.
Qed.

Lemma byte_xor_involutive (k x : byte) : byte_xor k (byte_xor k x) = x.
Proof.
  unfold byte_xor.
  destruct (Byte.to_bits k)
    as [k0 [k1 [k2 [k3 [k4 [k5 [k6 k7]]]]]]] eqn:Ek.
  destruct (Byte.to_bits x)
    as [x0 [x1 [x2 [x3 [x4 [x5 [x6 x7]]]]]]] eqn:Ex.
  rewrite Byte.to_bits_of_bits.
  rewrite <- (Byte.of_bits_to_bits x), Ex.
  f_equal.
  repeat (f_equal; try (rewrite <- xorb_assoc, xorb_nilpotent, xorb_false_l;
                        reflexivity)).
Qed.

Lemma flip_byte_length (i : nat) (mask : byte) (buf : list byte) :
  List.length (flip_byte i mask buf) = List.length buf.
Proof.
  revert i. induction buf as [| b rest IH]; intros i; [reflexivity |].
  destruct i; cbn [flip_byte List.length]; [reflexivity |].
  rewrite IH. reflexivity.
Qed.

Lemma flip_byte_app_l (i : nat) (mask : byte) (a b : list byte) :
  (i < List.length a)%nat ->
  flip_byte i mask (a ++ b) = flip_byte i mask a ++ b.
Proof.
  revert i. induction a as [| x a IH]; intros i Hi; cbn [List.length] in Hi.
  - lia.
  - destruct i; cbn [app flip_byte]; [reflexivity |].
    rewrite IH by lia. reflexivity.
Qed.

Lemma flip_byte_app_r (i : nat) (mask : byte) (a b : list byte) :
  flip_byte (List.length a + i) mask (a ++ b) = a ++ flip_byte i mask b.
Proof.
  induction a as [| x a IH]; [reflexivity |].
  cbn [List.length Nat.add app flip_byte]. rewrite IH. reflexivity.
Qed.

Lemma flip_byte_changes (i : nat) (mask : byte) (buf : list byte) :
  (i < List.length buf)%nat -> mask <> x00 -> flip_byte i mask buf <> buf.
Proof.
  revert i. induction buf as [| b rest IH]; intros i Hi Hm;
    cbn [List.length] in Hi; [lia |].
  destruct i; cbn [flip_byte]; intros E; inversion E as [[Hb]].
  - apply Hm. eapply byte_xor_fixed. exact Hb.
  - apply (IH i); [lia | exact Hm | assumption].
Qed.

Section CipherLayer.

Context {G : AesGcm}.

(** One run of [encrypt]. *)
Lemma encrypt_run (text : string) (p : Proc) :
  let pk := snd (getEncryptionKey p) in
  let key := process_key p in
  let iv := map (entropy pk) (seq 0 IV_LENGTH) in
  let payload := gcm_ctr key iv (utf8_encode text) in
  encrypt text p =
    (if (List.length key =? 32)%nat
     then Ok (to_hex iv ++ to_hex (gcm_tag key iv payload) ++ to_hex payload)%string
     else Throw InvalidKeyLength,
     snd (randomBytes IV_LENGTH pk)).
Proof.
  destruct (getEncryptionKey_run p) as [p' [Hrun _]].
  cbv zeta. unfold encrypt. unfold bind at 1. rewrite Hrun. cbn [snd].
  unfold check_key, randomBytes. run_monad.
  destruct (List.length (process_key p) =? 32)%nat; reflexivity.
Qed.

(** One run of [decrypt] on a blob laid out as IV, tag, payload. *)
Lemma decrypt_run (iv tag payload : list byte) (p : Proc) :
  List.length iv = IV_LENGTH ->
  List.length tag = AUTH_TAG_LENGTH ->
  let key := process_key p in
  decrypt (to_hex iv ++ to_hex tag ++ to_hex payload)%string p =
    (if (List.length key =? 32)%nat
     then if list_eq_dec Byte.byte_eq_dec tag (gcm_tag key iv payload)
          then Ok (utf8_decode (gcm_ctr key iv payload))
          else Throw AuthFailed
     else Throw InvalidKeyLength,
     snd (getEncryptionKey p)).
Proof.
  intros Hiv Htag. cbv zeta.
  destruct (@blob_slices iv tag payload Hiv Htag) as [E1 [E2 E3]].
  destruct (getEncryptionKey_run p) as [p' [Hrun _]].
  unfold decrypt. unfold bind at 1. rewrite Hrun. cbn [snd].
  rewrite E1, E2, E3. unfold check_key. run_monad.
  destruct (List.length (process_key p) =? 32)%nat; [| reflexivity].
  destruct (list_eq_dec Byte.byte_eq_dec tag _); reflexivity.
Qed.

End CipherLayer.

(** What [encrypt] produced, [decrypt] opens under the same key. *)
Lemma decrypt_after_encrypt
    (G : AesGcm)
    (ctr_involutive :
       forall key iv data, gcm_ctr key iv (gcm_ctr key iv data) = data)
    (tag_length :
       forall key iv data, List.length (gcm_tag key iv data) = AUTH_TAG_LENGTH)
    (p : Proc) (text blob : string) (p1 p2 : Proc) :
  encrypt text p = (Ok blob, p1) ->
  process_key p2 = process_key p ->
  decrypt blob p2 = (Ok text, snd (getEncryptionKey p2)).
Proof.
  intros Henc Hk2.
  pose proof (encrypt_run text p) as Hrun. cbv zeta in Hrun.
  rewrite Henc in Hrun.
  destruct (List.length (process_key p) =? 32)%nat eqn:Hlen;
    [| apply (f_equal fst) in Hrun; discriminate Hrun].
  apply (f_equal fst) in Hrun. cbn [fst] in Hrun.
  assert (Hblob : blob = (to_hex (map (entropy (snd (getEncryptionKey p))) (seq 0 IV_LENGTH))
     ++ to_hex (gcm_tag (process_key p) (map (entropy (snd (getEncryptionKey p))) (seq 0 IV_LENGTH))
                  (gcm_ctr (process_key p) (map (entropy (snd (getEncryptionKey p))) (seq 0 IV_LENGTH)) (utf8_encode text)))
     ++ to_hex (gcm_ctr (process_key p) (map (entropy (snd (getEncryptionKey p))) (seq 0 IV_LENGTH)) (utf8_encode text)))%string)
    by congruence.
  rewrite Hblob.
  rewrite decrypt_run;
    [| rewrite length_map, length_seq; reflexivity | apply tag_length].
  rewrite Hk2, Hlen.
  destruct (list_eq_dec Byte.byte_eq_dec _ _) as [_ | Hne];
    [| exfalso; apply Hne; reflexivity].
  rewrite ctr_involutive. unfold utf8_decode, utf8_encode.
  rewrite string_of_list_byte_of_string. reflexivity.
Qed.

Lemma randomBytes_keeps_key (n : nat) (p : Proc) :
  encryptionKey (snd (randomBytes n p)) = encryptionKey p.
Proof. reflexivity. Qed.

(** C6.  Whatever [encrypt] returns under the process key is the hex form of
    IV, tag and payload in that order; the IV is the 16 bytes the entropy
    source delivers to this call, and the next call gets the 16 after them;
    [decrypt] needs the blob and the key only and gives back the text that
    was encrypted; and the blob with one byte of the tag or of the payload
    altered is refused with the authentication error, the tag of GCM being
    taken not to fit another payload of the same length under the same key
    and IV. *)
Theorem encrypt_decrypt_roundtrip
    (G : AesGcm)
    (ctr_involutive :
       forall key iv data, gcm_ctr key iv (gcm_ctr key iv data) = data)
    (tag_length :
       forall key iv data, List.length (gcm_tag key iv data) = AUTH_TAG_LENGTH)
    (p : Proc) (text blob : string) (p1 : Proc) :
  encrypt text p = (Ok blob, p1) ->
  let pk := snd (getEncryptionKey p) in
  let key := process_key p in
  let iv := map (entropy pk) (seq 0 IV_LENGTH) in
  let payload := gcm_ctr key iv (utf8_encode text) in
  blob = to_hex (iv ++ gcm_tag key iv payload ++ payload) /\
  process_key p1 = key /\
  map (entropy (snd (getEncryptionKey p1))) (seq 0 IV_LENGTH)
    = map (entropy pk) (seq IV_LENGTH IV_LENGTH) /\
  (forall p2, process_key p2 = key -> fst (decrypt blob p2) = Ok text) /\
  (forall p2 i mask,
      process_key p2 = key ->
      mask <> x00 ->
      (forall c, List.length c = List.length payload ->
                 gcm_tag key iv c = gcm_tag key iv payload -> c = payload) ->
      (IV_LENGTH <= i < List.length (from_hex blob))%nat ->
      fst (decrypt (to_hex (flip_byte i mask (from_hex blob))) p2)
        = Throw AuthFailed).
Proof.
  intros Henc pk key iv payload.
  pose proof (encrypt_run text p) as Hrun. cbv zeta in Hrun.
  fold pk key iv payload in Hrun. rewrite Henc in Hrun.
  destruct (List.length key =? 32)%nat eqn:Hlen;
    [| apply (f_equal fst) in Hrun; discriminate Hrun].
  assert (Hblob : blob = (to_hex iv ++ to_hex (gcm_tag key iv payload)
                            ++ to_hex payload)%string)
    by (apply (f_equal fst) in Hrun; cbn [fst] in Hrun; congruence).
  assert (Hp1 : p1 = snd (randomBytes IV_LENGTH pk))
    by (apply (f_equal snd) in Hrun; exact Hrun).
  clear Hrun. subst blob p1.
  assert (Hiv : List.length iv = IV_LENGTH)
    by (unfold iv; rewrite length_map, length_seq; reflexivity).
  assert (Htag : List.length (gcm_tag key iv payload) = AUTH_TAG_LENGTH)
    by apply tag_length.
  assert (Hlayout : (to_hex iv ++ to_hex (gcm_tag key iv payload)
                       ++ to_hex payload)%string
                    = to_hex (iv ++ gcm_tag key iv payload ++ payload))
    by (rewrite !to_hex_app; reflexivity).
  assert (Hkey1 : encryptionKey (snd (randomBytes IV_LENGTH pk)) = Some key).
  { rewrite randomBytes_keeps_key. unfold pk, key.
    destruct (getEncryptionKey_run p) as [p' [E [Hk _]]].
    rewrite E. exact Hk. }
  split; [exact Hlayout |].
  split; [apply process_key_cached; exact Hkey1 |].
  split.
  { destruct (getEncryptionKey_run (snd (randomBytes IV_LENGTH pk)))
      as [p' [E [_ [_ [_ [_ Hsame]]]]]].
    rewrite E. cbn [snd]. rewrite (Hsame key Hkey1). reflexivity. }
  split.
  - intros p2 Hk2.
    rewrite (@decrypt_after_encrypt G ctr_involutive tag_length p text _ _ p2
               Henc Hk2).
    reflexivity.
  - intros p2 i mask Hk2 Hmask Hbinds Hi.
    rewrite Hlayout, from_hex_to_hex in *.
    rewrite !length_app, Hiv, Htag in Hi.
    destruct (Nat.lt_ge_cases i (IV_LENGTH + AUTH_TAG_LENGTH)) as [Hin | Hin].
    + (* a byte of the tag *)
      replace i with (List.length iv + (i - IV_LENGTH))%nat by lia.
      rewrite flip_byte_app_r, flip_byte_app_l by lia.
      rewrite !to_hex_app.
      rewrite (@decrypt_run G iv _ payload p2 Hiv)
        by (rewrite flip_byte_length; exact Htag).
      cbn [fst]. rewrite Hk2, Hlen.
      destruct (list_eq_dec Byte.byte_eq_dec _ _) as [E | _];
        [| reflexivity].
      exfalso. revert E. apply flip_byte_changes; [lia | exact Hmask].
    + (* a byte of the payload *)
      replace i with (List.length iv + (List.length (gcm_tag key iv payload)
                        + (i - IV_LENGTH - AUTH_TAG_LENGTH)))%nat by lia.
      rewrite !flip_byte_app_r. rewrite !to_hex_app.
      rewrite (@decrypt_run G iv _ _ p2 Hiv Htag).
      cbn [fst]. rewrite Hk2, Hlen.
      destruct (list_eq_dec Byte.byte_eq_dec _ _) as [E | _];
        [| reflexivity].
      exfalso. symmetry in E. apply Hbinds in E.
      * revert E. apply flip_byte_changes; [| exact Hmask].
        unfold IV_LENGTH, AUTH_TAG_LENGTH in *. lia.
      * apply flip_byte_length.
Qed.

Lemma sim_ctr_involutive (key iv data : list byte) :
  gcm_ctr key iv (gcm_ctr key iv data) = data.
Proof.
  cbn [gcm_ctr sim_gcm]. rewrite map_map.
  rewrite <- (map_id data) at 2. apply map_ext. intros b.
  apply byte_xor_involutive.
Qed.

Lemma sim_tag_length (key iv data : list byte) :
  List.length (gcm_tag key iv data) = AUTH_TAG_LENGTH.
Proof.
  cbn [gcm_tag sim_gcm]. rewrite length_firstn, length_app, repeat_length.
  unfold AUTH_TAG_LENGTH. lia.
Qed.

Lemma sim_tag_binds (key iv c payload : list byte) :
  (List.length payload <= 16)%nat ->
  List.length c = List.length payload ->
  gcm_tag key iv c = gcm_tag key iv payload -> c = payload.
Proof.
  cbn [gcm_tag sim_gcm]. intros Hshort Hlen E.
  rewrite !firstn_app, Hlen in E.
  rewrite (@firstn_all2 _ 16 c), (@firstn_all2 _ 16 payload) in E by lia.
  apply app_inv_tail in E. exact E.
Qed.

(** Encrypting what [decrypt] returned does not give the blob back: the
    second call draws its own IV. *)
Lemma reencrypt_draws_new_iv :
  fst (decrypt sim_blob_4321 sim_proc_after_encrypt) = Ok "4321" /\
  fst (encrypt "4321" sim_proc_after_encrypt) <> Ok sim_blob_4321.
Proof. split; [reflexivity | vm_compute; discriminate]. Qed.

(** In the simulated process 4321 comes back from its blob, and the blob
    with a bit flipped in byte 20 (tag) or in byte 33 (payload) is refused. *)
Lemma encrypt_decrypt_roundtrip_witness :
  fst (decrypt sim_blob_4321 sim_proc_after_encrypt) = Ok "4321" /\
  fst (decrypt (to_hex (flip_byte 20 x01 (from_hex sim_blob_4321)))
         sim_proc_after_encrypt) = Throw AuthFailed /\
  fst (decrypt (to_hex (flip_byte 33 x01 (from_hex sim_blob_4321)))
         sim_proc_after_encrypt) = Throw AuthFailed.
Proof.
  destruct (@encrypt_decrypt_roundtrip sim_gcm sim_ctr_involutive
              sim_tag_length sim_proc "4321" sim_blob_4321
              sim_proc_after_encrypt eq_refl)
    as [_ [_ [_ [Hback Htamper]]]].
  split; [apply Hback; reflexivity |].
  split; apply Htamper;
    try reflexivity; try discriminate;
    try (intros c Hlen; apply sim_tag_binds; [vm_compute; lia | exact Hlen]);
    vm_compute; lia.
Defined.

(* ================================================================== *)
(** * Properties of the code store *)
(* ================================================================== *)

Lemma find_insert_other (f : UserCode -> bool) (x : UserCode)
    (l : list UserCode) :
  f x = false -> find f (insert_by_slot x l) = find f l.
Proof.
  intros Hx. induction l as [| y l IH]; cbn [insert_by_slot find].
  - rewrite Hx. reflexivity.
  - destruct (slot x <=? slot y); cbn [find].
    + rewrite Hx. reflexivity.
    + rewrite IH. reflexivity.
Qed.

Lemma find_sort_pushed (s : Z) (c : UserCode) (l : list UserCode) :
  slot c = s ->
  find (fun x => slot x =? s)
       (sort_by_slot (filter (fun x => negb (slot x =? s)) l ++ [c]))
    = Some c.
Proof.
  intros Hc. unfold sort_by_slot. rewrite fold_right_app. cbn [fold_right insert_by_slot].
  induction l as [| y l IH]; cbn [filter fold_right].
  - cbn [find]. rewrite Hc, Z.eqb_refl. reflexivity.
  - destruct (slot y =? s) eqn:Hy; cbn [negb]; [exact IH |].
    cbn [fold_right]. rewrite find_insert_other by exact Hy. exact IH.
Qed.

Lemma In_insert_by_slot (x c : UserCode) (l : list UserCode) :
  In x (insert_by_slot c l) <-> x = c \/ In x l.
Proof.
  induction l as [| y l IH]; cbn [insert_by_slot In].
  - intuition congruence.
  - destruct (slot c <=? slot y); cbn [In]; [intuition congruence |].
    rewrite IH. intuition congruence.
Qed.

Lemma In_sort_by_slot (x : UserCode) (l : list UserCode) :
  In x (sort_by_slot l) <-> In x l.
Proof.
  unfold sort_by_slot. induction l as [| y l IH]; cbn [fold_right In].
  - tauto.
  - rewrite In_insert_by_slot, IH. intuition congruence.
Qed.


Lemma shape_cases (p : Proc) : file p = Misshapen \/ file p <> Misshapen.
Proof. destruct (file p); [right | right | right | right | left];
  try reflexivity; discriminate. Qed.

Lemma loadStorage_stored (p : Proc) :
  file p <> Misshapen -> loadStorage p = Storage (stored p).
Proof.
  unfold loadStorage, stored. destruct (file p); intros H;
    try reflexivity. exfalso. apply H. reflexivity.
Qed.

Lemma loadStorage_inv (p : Proc) (st : CodeStorage) :
  loadStorage p = Storage st -> file p <> Misshapen /\ stored p = st.
Proof.
  unfold loadStorage, stored. destruct (file p); intros H;
    try discriminate H; (split; [discriminate | congruence]).
Qed.

Lemma loadStorage_misshapen (p : Proc) :
  loadStorage p = NotStorage <-> file p = Misshapen.
Proof.
  unfold loadStorage. destruct (file p); split; intros H;
    try discriminate H; reflexivity.
Qed.

Section StoreRuns.

Context {G : AesGcm}.

Lemma encrypt_keeps_file (text : string) (p : Proc) :
  file (snd (encrypt text p)) = file p /\
  writable (snd (encrypt text p)) = writable p /\
  encryptionKey (snd (encrypt text p)) = Some (process_key p).
Proof.
  rewrite encrypt_run. cbn [snd randomBytes file writable encryptionKey].
  destruct (getEncryptionKey_run p) as [p' [E [Hk [Hf [Hw _]]]]].
  rewrite E. cbn [snd]. auto.
Qed.

(** One run of [saveCode]. *)
Lemma saveCode_run (s : Z) (label text : string) (p : Proc) :
  file p <> Misshapen ->
  saveCode s label text p =
    if valid_pin text
    then match encrypt text p with
         | (Ok blob, pe) =>
             saveStorage
               {| codes := sort_by_slot
                    (filter (fun c => negb (slot c =? s)) (codes (stored p))
                     ++ [{| slot := s; name := label; pin := blob |}]) |} pe
         | (Throw e, pe) => (Throw e, pe)
         end
    else (Throw InvalidPin, p).
Proof.
  intros Hshape.
  unfold saveCode. unfold bind at 1. unfold gets.
  rewrite (@loadStorage_stored p Hshape).
  destruct (valid_pin text); cbn [negb]; [| reflexivity].
  unfold bind, codes_array, ret.
  destruct (encrypt text p) as [[blob | e] pe]; reflexivity.
Qed.

(** The PIN is tested before the store is looked at. *)
Lemma saveCode_invalid_pin (s : Z) (label text : string) (p : Proc) :
  valid_pin text = false -> saveCode s label text p = (Throw InvalidPin, p).
Proof.
  intros Hbad. unfold saveCode. unfold bind at 1. unfold gets.
  rewrite Hbad. reflexivity.
Qed.

(** On a file of another shape every store function throws at
    [storage.codes], before anything is drawn, settled or written. *)
Lemma saveCode_misshapen (s : Z) (label text : string) (p : Proc) :
  file p = Misshapen -> valid_pin text = true ->
  saveCode s label text p = (Throw TypeError, p).
Proof.
  intros Hshape Hvalid. apply loadStorage_misshapen in Hshape.
  unfold saveCode. unfold bind at 1. unfold gets.
  rewrite Hvalid, Hshape. reflexivity.
Qed.

Lemma getCode_misshapen (s : Z) (p : Proc) :
  file p = Misshapen -> getCode s p = (Throw TypeError, p).
Proof.
  intros Hshape. apply loadStorage_misshapen in Hshape.
  unfold getCode. unfold bind at 1. unfold gets.
  rewrite Hshape. reflexivity.
Qed.

(** One run of [getCode]. *)
Lemma getCode_run (s : Z) (p : Proc) :
  file p <> Misshapen ->
  getCode s p =
    match find (fun c => slot c =? s) (codes (stored p)) with
    | None => (Ok None, p)
    | Some code =>
        match decrypt (pin code) p with
        | (Ok plain, p') =>
            (Ok (Some {| view_name := name code; view_pin := plain |}), p')
        | (Throw e, p') => (Throw e, p')
        end
    end.
Proof.
  intros Hshape.
  unfold getCode. unfold bind at 1. unfold gets.
  rewrite (@loadStorage_stored p Hshape).
  unfold bind at 1. unfold codes_array, ret.
  destruct (find _ _) as [code |]; [| reflexivity].
  unfold bind. destruct (decrypt (pin code) p) as [[plain | e] p'];
    reflexivity.
Qed.

(** A [saveCode] that returned found a store file of the right shape. *)
Lemma saveCode_ok_shape (s : Z) (label text : string) (p q : Proc) :
  saveCode s label text p = (Ok tt, q) -> file p <> Misshapen.
Proof.
  intros Hrun Hshape. destruct (valid_pin text) eqn:Hvalid.
  - rewrite (@saveCode_misshapen s label text p Hshape Hvalid) in Hrun.
    discriminate Hrun.
  - rewrite (@saveCode_invalid_pin s label text p Hvalid) in Hrun.
    discriminate Hrun.
Qed.

End StoreRuns.

Lemma deleteCode_run (s : Z) (p : Proc) :
  file p <> Misshapen ->
  deleteCode s p =
    saveStorage
      {| codes := filter (fun c => negb (slot c =? s)) (codes (stored p)) |} p.
Proof.
  intros Hshape. unfold deleteCode. unfold bind at 1. unfold gets.
  rewrite (@loadStorage_stored p Hshape). reflexivity.
Qed.

Lemma deleteCode_misshapen (s : Z) (p : Proc) :
  file p = Misshapen -> deleteCode s p = (Throw TypeError, p).
Proof.
  intros Hshape. apply loadStorage_misshapen in Hshape.
  unfold deleteCode. unfold bind at 1. unfold gets.
  rewrite Hshape. reflexivity.
Qed.

Lemma getAllCodes_run (p : Proc) :
  file p <> Misshapen ->
  getAllCodes p = (Ok (map label_of (codes (stored p))), p).
Proof.
  intros Hshape. unfold getAllCodes. unfold bind at 1. unfold gets.
  rewrite (@loadStorage_stored p Hshape). reflexivity.
Qed.






Lemma valid_pin_spec (text : string) :
  valid_pin text = true <->
  (4 <= String.length text <= 8)%nat /\
  forall c, In c (list_ascii_of_string text) -> is_digit c = true.
Proof.
  unfold valid_pin. rewrite !andb_true_iff, forallb_forall.
  rewrite !Nat.leb_le. tauto.
Qed.

(** C4, as stated, fails.  Given the two-character PIN 12 and slot 99,
    [setUserCode] sends the set command for slot 99 with code 12 to the lock,
    and with a lock that takes it the run ends in success. *)
Lemma setUserCode_sends_malformed_pin :
  let run := setUserCode (sim_driver accepting) 8 99 "12" (sim_world sim_proc) in
  valid_pin "12" = false /\
  In (EvSet 99 1 "12") (sent (snd run)) /\
  fst run = Ok tt.
Proof.
  cbv zeta. split; [reflexivity |]. split; [| reflexivity].
  vm_compute. right. right. left. reflexivity.
Qed.

(** C4, amended.  The format check is [saveCode]'s: for every PIN that is
    not 4 to 8 digits it throws the PIN error and leaves the process state,
    store file included, as it was, whatever the slot.  [setUserCode] checks
    neither PIN nor slot: once the node and its command class are found, the
    set command with the slot and code it was given is the third thing it
    sends. *)
Theorem saveCode_validates_setUserCode_forwards (G : AesGcm) :
  (forall (p : Proc) (s : Z) (label text : string),
      valid_pin text = false ->
      saveCode s label text p = (Throw InvalidPin, p))
  /\
  (forall (D : Type) (driver : Driver D) (nodeId slot : Z) (code : string)
          (node : ZWaveNode D) (cc : UserCodeCC D) (w : World D),
      nodes driver nodeId = Some node ->
      userCodeCommandClass node = Some cc ->
      exists rest,
        sent (snd (setUserCode driver nodeId slot code w))
          = sent w ++ [EvGetCapabilities; EvGet slot; EvSet slot 1 code] ++ rest).
Proof.
  split.
  - intros p s label text Hbad. apply saveCode_invalid_pin. exact Hbad.
  - intros D driver nodeId slot code node cc w Hn Hc.
    rewrite (@setUserCode_run _ driver nodeId slot code node cc w Hn Hc).
    destruct (after_set cc slot code (dev w)) as [[u | msg] d3].
    + exists [EvSleep 5000; EvGet slot]. cbv zeta.
      destruct (fst (get cc slot d3)) as [v | msg];
        [destruct (not_occupied v) |]; reflexivity.
    + exists []. reflexivity.
Qed.

(** The PIN 12 is refused by [saveCode] with the store untouched, and the
    simulated lock is sent the set command for it. *)
Lemma saveCode_validates_setUserCode_forwards_witness :
  saveCode 99 "Guest" "12" sim_proc = (Throw InvalidPin, sim_proc)
  /\
  exists rest,
    sent (snd (setUserCode (sim_driver accepting) 8 99 "12" (sim_world sim_proc)))
      = [] ++ [EvGetCapabilities; EvGet 99; EvSet 99 1 "12"] ++ rest.
Proof.
  destruct (saveCode_validates_setUserCode_forwards sim_gcm) as [Hsave Hset].
  split.
  - apply Hsave. reflexivity.
  - apply (Hset (list Z) (sim_driver accepting) 8 99 "12"
             {| userCodeCommandClass := Some (sim_lock accepting) |}
             (sim_lock accepting) (sim_world sim_proc));
      reflexivity.
Defined.




(* ================================================================== *)
(** * Enumeration of the occupied slots *)
(* ================================================================== *)

Lemma slots_upto_spec (maxSlots s : Z) :
  In s (slots_upto maxSlots) <-> 1 <= s <= maxSlots.
Proof.
  unfold slots_upto. rewrite in_map_iff. split.
  - intros [n [Hn Hin]]. apply in_seq in Hin. lia.
  - intros Hs. exists (Z.to_nat s). split; [lia |]. apply in_seq. lia.
Qed.

Lemma query_slots_run {D : Type} (cc : UserCodeCC D) (slots : list Z) :
  forall (acc : list CodeEntry) (w : World D),
    query_slots cc slots acc w =
      (Ok (acc ++ entries_of (fst (poll cc slots (dev w)))),
       {| dev := snd (poll cc slots (dev w)); proc := proc w;
          sent := sent w ++ map EvGet slots |}).
Proof.
  induction slots as [| s rest IH]; intros acc w.
  - cbn. rewrite !app_nil_r. destruct w; reflexivity.
  - cbn [query_slots poll map]. run_monad.
    destruct (get cc s (dev w)) as [r d1] eqn:Hget. cbn [fst snd thrown].
    destruct (poll cc rest d1) as [answers d2] eqn:Hpoll.
    destruct r as [[data |] | msg]; cbn [thrown entries_of fst snd];
      try destruct (userIdStatus data =? 0);
      rewrite IH; cbn [dev proc sent]; rewrite Hpoll; cbn [fst snd];
      rewrite <- ?app_assoc; reflexivity.
Qed.

Lemma poll_slots {D : Type} (cc : UserCodeCC D) (slots : list Z) :
  forall d : D, map fst (fst (poll cc slots d)) = slots.
Proof.
  induction slots as [| s rest IH]; intros d; [reflexivity |].
  cbn [poll]. destruct (get cc s d) as [r d1].
  specialize (IH d1). destruct (poll cc rest d1) as [answers d2].
  cbn [fst map] in *. rewrite IH. reflexivity.
Qed.

Lemma entries_of_spec (answers : list (Z * Reply (option UserCodeData)))
    (e : CodeEntry) :
  In e (entries_of answers) <->
  exists data,
    In (entry_slot e, Answer (Some data)) answers /\
    userIdStatus data <> 0 /\
    entry_status e = userIdStatus data.
Proof.
  induction answers as [| [s r] rest IH]; cbn [entries_of In].
  - split; [tauto | intros [data [[] _]]].
  - destruct r as [[data |] | msg].
    + destruct (userIdStatus data =? 0) eqn:Hst.
      * apply Z.eqb_eq in Hst. rewrite IH. split.
        -- intros [d' [Hin H]]. exists d'. split; [right; exact Hin | exact H].
        -- intros [d' [[Heq | Hin] [Hne Hs]]].
           ++ inversion Heq; subst. contradiction.
           ++ exists d'. auto.
      * apply Z.eqb_neq in Hst. cbn [In]. rewrite IH. split.
        -- intros [Heq | [d' [Hin H]]].
           ++ subst e. exists data. cbn. auto.
           ++ exists d'. split; [right; exact Hin | exact H].
        -- intros [d' [[Heq | Hin] [Hne Hs]]].
           ++ inversion Heq; subst. left. destruct e; cbn in *. congruence.
           ++ right. exists d'. auto.
    + rewrite IH. split.
      * intros [d' [Hin H]]. exists d'. split; [right; exact Hin | exact H].
      * intros [d' [[Heq | Hin] H]]; [discriminate | exists d'; auto].
    + rewrite IH. split.
      * intros [d' [Hin H]]. exists d'. split; [right; exact Hin | exact H].
      * intros [d' [[Heq | Hin] H]]; [discriminate | exists d'; auto].
Qed.

(** C8, as stated, fails.  A lock that reports 0 users is queried on the
    slots 1 to 30, not up to the maximum it reported, and its slot 30 is
    returned. *)
Lemma getUserCodes_ignores_zero_count :
  let pol := {| accepts := true; get_times_out := fun _ => false;
                clear_fails := false; users_count := Some 0 |} in
  let run := getUserCodes (sim_driver pol) 8
               {| dev := [30]; proc := sim_proc; sent := [] |} in
  fst (getUsersCount (sim_lock pol) [30]) = Answer (Some 0) /\
  fst run = Ok [ {| entry_slot := 30; entry_status := 1 |} ] /\
  sent (snd run) = EvGetUsersCount :: map EvGet (slots_upto 30).
Proof. cbv zeta. repeat split; vm_compute; reflexivity. Qed.

(** C8, amended.  Once the lock has reported its number of users,
    [getUserCodes] queries the slots 1, 2, ..., maxSlots in that order,
    where maxSlots is the number reported when it is not zero, and 30 when
    none or zero is reported; every one of
    them is queried whether or not an earlier query failed; and the entries
    returned are exactly the queried slots whose answer carries a status
    other than 0, each with that status. *)
Theorem getUserCodes_enumerates
    (D : Type) (driver : Driver D) (nodeId : Z)
    (node : ZWaveNode D) (cc : UserCodeCC D) (w : World D)
    (usersCount : option Z) (d1 : D) :
  nodes driver nodeId = Some node ->
  userCodeCommandClass node = Some cc ->
  getUsersCount cc (dev w) = (Answer usersCount, d1) ->
  let maxSlots := maxSlots_of usersCount in
  let answers := fst (poll cc (slots_upto maxSlots) d1) in
  getUserCodes driver nodeId w =
    (Ok (entries_of answers),
     {| dev := snd (poll cc (slots_upto maxSlots) d1); proc := proc w;
        sent := sent w ++ EvGetUsersCount :: map EvGet (slots_upto maxSlots) |})
  /\ map fst answers = slots_upto maxSlots
  /\ (forall s, In s (slots_upto maxSlots) <-> 1 <= s <= maxSlots)
  /\ (usersCount = None \/ usersCount = Some 0 -> maxSlots = 30)
  /\ (forall n, usersCount = Some n -> n <> 0 -> maxSlots = n)
  /\ (forall e,
        In e (entries_of answers) <->
        exists data,
          In (entry_slot e, Answer (Some data)) answers /\
          userIdStatus data <> 0 /\
          entry_status e = userIdStatus data).
Proof.
  intros Hn Hc Hcount maxSlots answers.
  split; [| split; [| split; [| split; [| split]]]].
  - unfold getUserCodes. rewrite Hn, Hc. run_monad. rewrite Hcount.
    cbn [fst snd thrown]. rewrite query_slots_run. cbn [dev proc sent app].
    rewrite <- app_assoc. reflexivity.
  - apply poll_slots.
  - intros s. apply slots_upto_spec.
  - intros [-> | ->]; reflexivity.
  - intros n -> Hne. unfold maxSlots, maxSlots_of.
    apply Z.eqb_neq in Hne. rewrite Hne. reflexivity.
  - intros e. apply entries_of_spec.
Qed.

(** The simulated lock reports 4 users, has slots 1, 2 and 3 occupied and
    cannot be queried on slot 2: all four slots are queried and slots 1 and
    3 are returned. *)
Lemma getUserCodes_enumerates_witness :
  getUserCodes (sim_driver flaky) 8 {| dev := [1; 2; 3]; proc := sim_proc; sent := [] |}
    = (Ok [ {| entry_slot := 1; entry_status := 1 |};
            {| entry_slot := 3; entry_status := 1 |} ],
       {| dev := [1; 2; 3]; proc := sim_proc;
          sent := [EvGetUsersCount; EvGet 1; EvGet 2; EvGet 3; EvGet 4] |}).
Proof.
  apply (@getUserCodes_enumerates (list Z) (sim_driver flaky) 8
           {| userCodeCommandClass := Some (sim_lock flaky) |}
           (sim_lock flaky)
           {| dev := [1; 2; 3]; proc := sim_proc; sent := [] |}
           (Some 4) [1; 2; 3] eq_refl eq_refl eq_refl).
Defined.

(* ================================================================== *)
(** * What the store's readers reveal *)
(* ================================================================== *)

Lemma label_of_slot (c1 c2 : UserCode) :
  label_of c1 = label_of c2 -> slot c1 = slot c2.
Proof. intros H. exact (f_equal label_slot H). Qed.

Lemma label_of_insert (c1 c2 : UserCode) (l1 l2 : list UserCode) :
  label_of c1 = label_of c2 ->
  map label_of l1 = map label_of l2 ->
  map label_of (insert_by_slot c1 l1) = map label_of (insert_by_slot c2 l2).
Proof.
  intros Hc. revert l2.
  induction l1 as [| x1 l1 IH]; intros [| x2 l2] Hl; try discriminate Hl;
    cbn [insert_by_slot map].
  - rewrite Hc. reflexivity.
  - cbn [map] in Hl. injection Hl as Hs Hn Hrest.
    assert (Hhead : label_of x1 = label_of x2)
      by (unfold label_of; rewrite Hs, Hn; reflexivity).
    rewrite (label_of_slot Hc), (label_of_slot Hhead).
    destruct (slot c2 <=? slot x2); cbn [map].
    + rewrite Hc, Hhead, Hrest. reflexivity.
    + rewrite Hhead, (IH l2 Hrest). reflexivity.
Qed.

Lemma label_of_sort (l1 l2 : list UserCode) :
  map label_of l1 = map label_of l2 ->
  map label_of (sort_by_slot l1) = map label_of (sort_by_slot l2).
Proof.
  unfold sort_by_slot. revert l2.
  induction l1 as [| x1 l1 IH]; intros [| x2 l2] Hl; try discriminate Hl;
    [reflexivity |].
  cbn [map] in Hl. injection Hl as Hs Hn Hrest.
    assert (Hhead : label_of x1 = label_of x2)
      by (unfold label_of; rewrite Hs, Hn; reflexivity). cbn [fold_right].
  apply label_of_insert; [exact Hhead | apply IH; exact Hrest].
Qed.

Lemma label_of_filter (s : Z) (l1 l2 : list UserCode) :
  map label_of l1 = map label_of l2 ->
  map label_of (filter (fun c => negb (slot c =? s)) l1)
    = map label_of (filter (fun c => negb (slot c =? s)) l2).
Proof.
  revert l2.
  induction l1 as [| x1 l1 IH]; intros [| x2 l2] Hl; try discriminate Hl;
    [reflexivity |].
  cbn [map] in Hl. injection Hl as Hs Hn Hrest.
    assert (Hhead : label_of x1 = label_of x2)
      by (unfold label_of; rewrite Hs, Hn; reflexivity). cbn [filter].
  rewrite (label_of_slot Hhead). destruct (slot x2 =? s); cbn [negb map].
  - apply IH. exact Hrest.
  - rewrite Hhead, (IH l2 Hrest). reflexivity.
Qed.

Section Listing.

Context {G : AesGcm}.

(** The labels after a successful [saveCode] are a function of the labels
    before and of the slot and label saved. *)
Lemma labels_after_saveCode (s : Z) (label t1 t2 : string) (p1 p2 q1 q2 : Proc) :
  map label_of (codes (stored p1)) = map label_of (codes (stored p2)) ->
  saveCode s label t1 p1 = (Ok tt, q1) ->
  saveCode s label t2 p2 = (Ok tt, q2) ->
  map label_of (codes (stored q1)) = map label_of (codes (stored q2)).
Proof.
  intros Hl H1 H2.
  rewrite saveCode_run in H1 by exact (@saveCode_ok_shape G s label t1 p1 q1 H1).
  rewrite saveCode_run in H2 by exact (@saveCode_ok_shape G s label t2 p2 q2 H2).
  destruct (valid_pin t1); [| discriminate H1].
  destruct (valid_pin t2); [| discriminate H2].
  destruct (encrypt t1 p1) as [[b1 | e1] pe1]; [| discriminate H1].
  destruct (encrypt t2 p2) as [[b2 | e2] pe2]; [| discriminate H2].
  unfold saveStorage in H1, H2.
  destruct (writable pe1); [| discriminate H1].
  destruct (writable pe2); [| discriminate H2].
  inversion H1; inversion H2. unfold stored at 1 3. cbn [file codes].
  apply label_of_sort. rewrite !map_app. f_equal.
  apply label_of_filter. exact Hl.
Qed.

Lemma labels_after_save_all (calls1 : list (Z * string * string)) :
  forall (calls2 : list (Z * string * string)) (p1 p2 : Proc),
    map call_label calls1 = map call_label calls2 ->
    map label_of (codes (stored p1)) = map label_of (codes (stored p2)) ->
    fst (save_all calls1 p1) = Ok tt ->
    fst (save_all calls2 p2) = Ok tt ->
    map label_of (codes (stored (snd (save_all calls1 p1))))
      = map label_of (codes (stored (snd (save_all calls2 p2)))).
Proof.
  induction calls1 as [| [[s1 l1] t1] calls1 IH];
    intros [| [[s2 l2] t2] calls2] p1 p2 Hcalls Hl H1 H2;
    try discriminate Hcalls; [exact Hl |].
  cbn [map] in Hcalls. inversion Hcalls as [[Hs Hlab Hrest]]. subst s2 l2.
  cbn [save_all] in *. unfold bind in *.
  destruct (saveCode s1 l1 t1 p1) as [[[] | e1] q1] eqn:E1;
    [| discriminate H1].
  destruct (saveCode s1 l1 t2 p2) as [[[] | e2] q2] eqn:E2;
    [| discriminate H2].
  apply IH; try assumption.
  eapply labels_after_saveCode; eassumption.
Qed.

End Listing.

(** C10.  When the store file is missing, cannot be read or does not parse,
    [loadStorage] returns the store with no codes, [getAllCodes] returns the
    empty list and [getCode] returns null for every slot; none of them
    throws, and the process state is left as it was. *)
Theorem missing_or_corrupt_store_reads_empty (G : AesGcm) (p : Proc) :
  file p = Missing \/ file p = Corrupt \/ file p = Unreadable ->
  loadStorage p = Storage {| codes := [] |} /\
  getAllCodes p = (Ok [], p) /\
  forall s : Z, getCode s p = (Ok None, p).
Proof.
  intros Hfile.
  assert (Hload : loadStorage p = Storage {| codes := [] |})
    by (unfold loadStorage; destruct Hfile as [-> | [-> | ->]]; reflexivity).
  split; [exact Hload |]. split.
  - unfold getAllCodes, bind, gets, ret. rewrite Hload. reflexivity.
  - intros s. unfold getCode, bind, gets, ret. rewrite Hload. reflexivity.
Qed.

(** The simulated process starts without a store file. *)
Lemma missing_or_corrupt_store_reads_empty_witness :
  loadStorage sim_proc = Storage {| codes := [] |} /\
  getAllCodes sim_proc = (Ok [], sim_proc) /\
  forall s : Z, getCode s sim_proc = (Ok None, sim_proc).
Proof.
  apply (missing_or_corrupt_store_reads_empty sim_gcm sim_proc).
  left. reflexivity.
Defined.

(* ================================================================== *)
(** * Properties of the driver lifecycle *)
(* ================================================================== *)

Lemma disarm_only (t : nat) : disarm t [t] = [].
Proof.
  unfold disarm. cbn [remove]. destruct (Nat.eq_dec t t) as [_ | Hne];
    [reflexivity | exfalso; apply Hne; reflexivity].
Qed.

Lemma scheduleReconnect_ok (s : Mgr) :
  timers_ok s -> timers_ok (scheduleReconnect s).
Proof.
  unfold timers_ok, scheduleReconnect. intros H.
  destruct (reconnectTimeout s) as [t |] eqn:Ht; [rewrite Ht; exact H |].
  cbn [pending reconnectTimeout]. rewrite H. reflexivity.
Qed.

Lemma timer_begin_ok (t : nat) (s : Mgr) :
  timers_ok s -> In t (pending s) -> timers_ok (timer_begin t s).
Proof.
  unfold timers_ok, timer_begin. intros H Hin. cbn [pending reconnectTimeout].
  rewrite H in *. destruct (reconnectTimeout s) as [t' |]; [| destruct Hin].
  destruct Hin as [-> | []]. apply disarm_only.
Qed.

Lemma on_driver_ready_ok (s : Mgr) :
  timers_ok s -> timers_ok (on_driver_ready s).
Proof.
  unfold timers_ok, on_driver_ready. intros H. cbn [pending reconnectTimeout].
  destruct (reconnectTimeout s) as [t |]; [| exact H].
  rewrite H. apply disarm_only.
Qed.

Lemma shutdownDriver_ok (destroyed : bool) (s : Mgr) :
  timers_ok s -> timers_ok (shutdownDriver destroyed s).
Proof.
  unfold timers_ok, shutdownDriver. intros H.
  destruct (reconnectTimeout s) as [t |] eqn:Ht.
  - cbn [timer_begin driverInstance].
    destruct (driverInstance s); [destruct destroyed |];
      cbn [drop_driver timer_begin pending reconnectTimeout];
      rewrite H; apply disarm_only.
  - destruct (driverInstance s); [destruct destroyed |];
      cbn [drop_driver pending reconnectTimeout]; rewrite Ht; exact H.
Qed.

Lemma mstep_timers_ok (s s' : Mgr) :
  mstep s s' -> timers_ok s -> timers_ok s'.
Proof.
  intros Hstep H. destruct Hstep.
  - unfold on_error. destruct message as [m |]; [| exact H].
    destruct (includes m "serial port" || includes m "ENOENT"); [| exact H].
    destruct (retry && negb (isReconnecting s));
      [apply scheduleReconnect_ok |]; exact H.
  - apply on_driver_ready_ok. exact H.
  - exact H.
  - exact H.
  - unfold init_catch. destruct (retry && negb (isReconnecting s)); [| exact H].
    destruct (includes errorMsg "timeout" || includes errorMsg "serial port"
              || includes errorMsg "ENOENT");
      [apply scheduleReconnect_ok |]; exact H.
  - apply timer_begin_ok; assumption.
  - exact H.
  - apply shutdownDriver_ok. exact H.
Qed.

Lemma reachable_timers_ok (s : Mgr) : reachable s -> timers_ok s.
Proof.
  induction 1 as [| s s' _ IH Hstep]; [reflexivity |].
  eapply mstep_timers_ok; eassumption.
Qed.

(** In every reachable state at most one reconnect timer is pending. *)
Lemma one_reconnect_timer_at_most (s : Mgr) :
  reachable s -> (List.length (pending s) <= 1)%nat.
Proof.
  intros Hr. rewrite (reachable_timers_ok Hr).
  destruct (reconnectTimeout s); cbn; lia.
Qed.

(** [scheduleReconnect] arms no timer while one is pending. *)
Lemma scheduleReconnect_debounced (s : Mgr) (t : nat) :
  reconnectTimeout s = Some t -> scheduleReconnect s = s.
Proof. unfold scheduleReconnect. intros ->. reflexivity. Qed.

(** 'driver ready' clears the pending timer and the flag. *)
Lemma on_driver_ready_clears (s : Mgr) :
  reachable s ->
  pending (on_driver_ready s) = [] /\
  reconnectTimeout (on_driver_ready s) = None /\
  isReconnecting (on_driver_ready s) = false.
Proof.
  intros Hr. pose proof (on_driver_ready_ok (reachable_timers_ok Hr)) as H.
  unfold timers_ok in H. cbn [on_driver_ready reconnectTimeout] in H.
  repeat split. exact H.
Qed.

(** A run of [initializeDriver] is made of steps of the manager. *)
Lemma initializeDriver_reachable (config : Config) (retry : bool)
    (outcome : StartOutcome) (s : Mgr) :
  reachable s -> reachable (snd (initializeDriver config retry outcome s)).
Proof.
  intros Hr. unfold initializeDriver.
  destruct (serialPort config) as [[| c port] |]; try exact Hr.
  assert (Hnew : reachable (snd (new_driver s)))
    by (eapply reach_step; [exact Hr | apply ms_new]).
  cbn [new_driver snd] in *.
  destruct outcome; cbn [snd].
  - eapply reach_step; [exact Hnew | apply ms_catch].
  - eapply reach_step; [| apply ms_done].
    eapply reach_step; [exact Hnew | apply ms_ready].
  - eapply reach_step; [exact Hnew | apply ms_catch].
Qed.

Lemma timer_fired_reachable (config : Config) (outcome : StartOutcome)
    (t : nat) (s : Mgr) :
  reachable s -> In t (pending s) ->
  reachable (timer_fired config outcome t s).
Proof.
  intros Hr Hin. unfold timer_fired. apply initializeDriver_reachable.
  assert (Hb : reachable (timer_begin t s))
    by (eapply reach_step; [exact Hr | apply ms_fire; exact Hin]).
  destruct (driverInstance (timer_begin t s)); [| exact Hb].
  eapply reach_step; [exact Hb | apply ms_drop].
Qed.

Lemma reconnect_loop_reachable (config : Config)
    (outcomes : list StartOutcome) :
  forall s, reachable s -> reachable (reconnect_loop config outcomes s).
Proof.
  induction outcomes as [| o rest IH]; intros s Hr; [exact Hr |].
  cbn [reconnect_loop]. destruct (pending s) as [| t ts] eqn:Hp; [exact Hr |].
  apply IH. apply timer_fired_reachable; [exact Hr |].
  rewrite Hp. left. reflexivity.
Qed.

Lemma run_manager_reachable (config : Config) (outcomes : list StartOutcome) :
  reachable (run_manager config outcomes).
Proof.
  unfold run_manager. destruct outcomes as [| o rest]; [apply reach_init |].
  apply reconnect_loop_reachable, initializeDriver_reachable, reach_init.
Qed.

(** With no failure, or with one, the manager is ready once. *)
Lemma run_manager_ready_after_one_failure (msg : string) :
  readied (run_manager sim_config [BecomesReady]) = 1%nat /\
  (includes msg "timeout" || includes msg "serial port" || includes msg "ENOENT"
     = true ->
   readied (run_manager sim_config [StartThrows msg; BecomesReady]) = 1%nat).
Proof.
  split; [reflexivity |]. intros Hm.
  unfold run_manager, initializeDriver, sim_config. cbn [serialPort new_driver snd].
  unfold init_catch. cbn [isReconnecting initial_mgr andb negb].
  rewrite Hm. reflexivity.
Qed.

(** Once the flag is set and no timer is armed, neither an 'error' event nor
    a failed attempt arms one. *)
Lemma reconnect_flag_blocks_rescheduling (retry : bool) (msg : string)
    (s : Mgr) :
  isReconnecting s = true ->
  on_error retry (Some msg) s = s /\ init_catch retry msg s = s.
Proof.
  intros Hflag. unfold on_error, init_catch. rewrite Hflag, andb_false_r.
  destruct (includes msg "serial port" || includes msg "ENOENT"); split;
    reflexivity.
Qed.

Lemma reconnect_loop_idle (config : Config) (outcomes : list StartOutcome)
    (s : Mgr) :
  pending s = [] -> reconnect_loop config outcomes s = s.
Proof.
  intros Hp. destruct outcomes as [| o rest]; [reflexivity |].
  cbn [reconnect_loop]. rewrite Hp. reflexivity.
Qed.

(** A failed attempt made by the timer callback, the flag being set. *)
Lemma timer_fired_fails_flagged (config : Config) (msg : string) (t : nat)
    (s : Mgr) :
  isReconnecting s = true ->
  reconnectTimeout s = Some t ->
  pending s = [t] ->
  driverInstance s = None ->
  let s' := timer_fired config (StartThrows msg) t s in
  pending s' = [] /\ readied s' = readied s /\ driverInstance s' = None.
Proof.
  intros Hflag Ht Hp Hd. cbv zeta. unfold timer_fired.
  assert (Hb : driverInstance (timer_begin t s) = None) by exact Hd.
  rewrite Hb. unfold initializeDriver.
  assert (Hpb : pending (timer_begin t s) = [])
    by (cbn [timer_begin pending]; rewrite Hp; apply disarm_only).
  destruct (serialPort config) as [[| c port] |]; cbn [snd new_driver];
    try (repeat split; [exact Hpb | exact Hd]).
  match goal with
  | |- context [init_catch true msg ?x] =>
      rewrite (proj2 (@reconnect_flag_blocks_rescheduling true msg x Hflag))
  end.
  repeat split; [exact Hpb | exact Hd].
Qed.

(** C5, on the code.  When the first two connection attempts fail, the flag
    [isReconnecting] set by the first [scheduleReconnect] is still set when
    the timer's attempt fails, so nothing is rescheduled: the manager ends
    with no timer pending, no driver and no further attempt, whatever the
    transport would have done next, and it has never been ready.  With the
    dongle unplugged for the first two attempts and present afterwards, the
    final state is the one computed here. *)
Theorem reconnect_gives_up_after_failed_retry :
  (forall (config : Config) (msg1 msg2 : string) (rest : list StartOutcome),
      let s := run_manager config
                 (StartThrows msg1 :: StartThrows msg2 :: rest) in
      readied s = 0%nat /\ driverInstance s = None /\ pending s = [])
  /\
  run_manager sim_config [unplugged; unplugged; BecomesReady]
    = {| driverInstance := None; reconnectTimeout := None;
         isReconnecting := true; pending := []; fresh := 3%nat;
         readied := 0%nat |}.
Proof.
  split; [| reflexivity].
  intros config msg1 msg2 rest. cbv zeta.
  unfold run_manager, initializeDriver.
  destruct (serialPort config) as [[| c port] |] eqn:Hport;
    cbn [snd new_driver];
    try (rewrite reconnect_loop_idle by reflexivity; repeat split).
  unfold init_catch.
  change (isReconnecting
            {| driverInstance := driverInstance initial_mgr;
               reconnectTimeout := reconnectTimeout initial_mgr;
               isReconnecting := isReconnecting initial_mgr;
               pending := pending initial_mgr;
               fresh := S (fresh initial_mgr);
               readied := readied initial_mgr |}) with false.
  cbn [andb negb].
  destruct (includes msg1 "timeout" || includes msg1 "serial port"
            || includes msg1 "ENOENT");
    [| rewrite reconnect_loop_idle by reflexivity; repeat split].
  cbn [reconnect_loop].
  change (pending (scheduleReconnect _)) with [1%nat].
  destruct (@timer_fired_fails_flagged config msg2 1%nat
              (scheduleReconnect
                 {| driverInstance := driverInstance initial_mgr;
                    reconnectTimeout := reconnectTimeout initial_mgr;
                    isReconnecting := isReconnecting initial_mgr;
                    pending := pending initial_mgr;
                    fresh := S (fresh initial_mgr);
                    readied := readied initial_mgr |})
              eq_refl eq_refl eq_refl eq_refl) as [Hp [Hr Hd]].
  rewrite reconnect_loop_idle by exact Hp.
  repeat split; assumption.
Qed.

(* ================================================================== *)
(** * The code store as a map from slots to codes *)
(* ================================================================== *)






Lemma saveStorage_writable (storage : CodeStorage) (p : Proc) :
  writable p = true ->
  saveStorage storage p = (Ok tt, with_file (Stored storage) p).
Proof.
  intros Hw. unfold saveStorage, with_file. rewrite Hw. reflexivity.
Qed.

Lemma process_key_with_file (f : FileState) (p : Proc) :
  process_key (with_file f p) = process_key p.
Proof. reflexivity. Qed.

Section StoreMap.

Context {G : AesGcm}.


Lemma decrypt_keeps (blob : string) (p : Proc) :
  file (snd (decrypt blob p)) = file p /\
  writable (snd (decrypt blob p)) = writable p /\
  process_key (snd (decrypt blob p)) = process_key p.
Proof.
  destruct (getEncryptionKey_run p) as [q [E [Hk [Hf [Hw _]]]]].
  assert (Hs : snd (decrypt blob p) = q).
  { unfold decrypt, bind, check_key, ret, throw. rewrite E.
    destruct (List.length (process_key p) =? 32)%nat; [| reflexivity].
    destruct (list_eq_dec Byte.byte_eq_dec _ _); reflexivity. }
  rewrite Hs. repeat split; try assumption.
  apply process_key_cached. exact Hk.
Qed.


(** A successful [saveCode], step by step. *)
Lemma saveCode_succeeds (s : Z) (label text : string) (p : Proc) :
  file p <> Misshapen ->
  valid_pin text = true ->
  writable p = true ->
  List.length (process_key p) = 32%nat ->
  exists blob pe,
    encrypt text p = (Ok blob, pe) /\
    encryptionKey pe = Some (process_key p) /\
    writable pe = true /\
    saveCode s label text p =
      (Ok tt,
       with_file
         (Stored {| codes := sort_by_slot
                      (filter (fun c => negb (slot c =? s)) (codes (stored p))
                       ++ [{| slot := s; name := label; pin := blob |}]) |})
         pe).
Proof.
  intros Hshape Hvalid Hw Hkey.
  pose proof (@saveCode_run G s label text p Hshape) as Hsave.
  rewrite Hvalid in Hsave.
  pose proof (encrypt_run text p) as Henc. cbv zeta in Henc.
  apply Nat.eqb_eq in Hkey. rewrite Hkey in Henc.
  destruct (encrypt_keeps_file text p) as [_ [Hw' Hk']].
  destruct (encrypt text p) as [r pe] eqn:Erun.
  assert (Hr : r = Ok (match r with Ok b => b | Throw _ => "" end))
    by (apply (f_equal fst) in Henc; cbn [fst] in Henc; rewrite Henc; reflexivity).
  destruct r as [blob | e]; [| discriminate Hr]. clear Hr.
  cbn [snd] in Hw', Hk'. rewrite Hw in Hw'.
  exists blob, pe. repeat split; try assumption.
  rewrite Hsave. apply saveStorage_writable. exact Hw'.
Qed.

End StoreMap.

Section StoreMapSteps.

Context {G : AesGcm}.
Hypothesis ctr_involutive :
  forall key iv data, gcm_ctr key iv (gcm_ctr key iv data) = data.
Hypothesis tag_length :
  forall key iv data, List.length (gcm_tag key iv data) = AUTH_TAG_LENGTH.

(** No store function repairs a file of another shape. *)
Lemma run_op_misshapen (op : StoreOp) (p : Proc) :
  file p = Misshapen -> snd (run_op op p) = p.
Proof.
  intros Hshape. destruct op as [s label text | s]; cbn [run_op].
  - destruct (valid_pin text) eqn:Hvalid.
    + rewrite (@saveCode_misshapen G s label text p Hshape Hvalid). reflexivity.
    + rewrite (@saveCode_invalid_pin G s label text p Hvalid). reflexivity.
  - rewrite (@deleteCode_misshapen s p Hshape). reflexivity.
Qed.




End StoreMapSteps.



(* ================================================================== *)
(** * Order, uniqueness and failure in the code store *)
(* ================================================================== *)

Lemma In_slots_of (z : Z) (l : list UserCode) :
  In z (slots_of l) <-> exists c, In c l /\ slot c = z.
Proof.
  unfold slots_of. rewrite in_map_iff. split; intros [c [H1 H2]]; exists c; auto.
Qed.

Lemma HdRel_insert (R : Z -> Z -> Prop) (a : Z) (c : UserCode)
    (l : list UserCode) :
  R a (slot c) -> HdRel R a (slots_of l) ->
  HdRel R a (slots_of (insert_by_slot c l)).
Proof.
  intros Hc Hl. destruct l as [| y l]; cbn [insert_by_slot slots_of map].
  - constructor. exact Hc.
  - destruct (slot c <=? slot y); cbn [map]; constructor;
      [exact Hc | inversion Hl; assumption].
Qed.

Lemma insert_by_slot_ordered (c : UserCode) (l : list UserCode) :
  Sorted Z.le (slots_of l) -> Sorted Z.le (slots_of (insert_by_slot c l)).
Proof.
  induction l as [| y l IH]; intros Hs; cbn [insert_by_slot].
  - repeat constructor.
  - apply Sorted_inv in Hs. destruct Hs as [Hs Hhd].
    destruct (slot c <=? slot y) eqn:Hle.
    + apply Z.leb_le in Hle. change (slots_of (c :: y :: l))
        with (slot c :: slots_of (y :: l)).
      constructor; [constructor; assumption | constructor; exact Hle].
    + apply Z.leb_gt in Hle.
      change (slots_of (y :: insert_by_slot c l))
        with (slot y :: slots_of (insert_by_slot c l)).
      constructor; [apply IH; exact Hs |].
      apply HdRel_insert; [lia | exact Hhd].
Qed.

Lemma sort_by_slot_ordered (l : list UserCode) :
  Sorted Z.le (slots_of (sort_by_slot l)).
Proof.
  unfold sort_by_slot. induction l as [| y l IH]; cbn [fold_right].
  - constructor.
  - apply insert_by_slot_ordered. exact IH.
Qed.

Lemma insert_by_slot_increasing (c : UserCode) (l : list UserCode) :
  Sorted Z.lt (slots_of l) -> ~ In (slot c) (slots_of l) ->
  Sorted Z.lt (slots_of (insert_by_slot c l)).
Proof.
  induction l as [| y l IH]; intros Hs Hnew; cbn [insert_by_slot].
  - repeat constructor.
  - apply Sorted_inv in Hs. destruct Hs as [Hs Hhd].
    assert (Hne : slot c <> slot y)
      by (intros E; apply Hnew; left; symmetry; exact E).
    assert (Hrest : ~ In (slot c) (slots_of l))
      by (intros Hin; apply Hnew; right; exact Hin).
    destruct (slot c <=? slot y) eqn:Hle.
    + apply Z.leb_le in Hle. change (slots_of (c :: y :: l))
        with (slot c :: slots_of (y :: l)).
      constructor; [constructor; assumption | constructor; lia].
    + apply Z.leb_gt in Hle.
      change (slots_of (y :: insert_by_slot c l))
        with (slot y :: slots_of (insert_by_slot c l)).
      constructor; [apply IH; assumption |].
      apply HdRel_insert; [lia | exact Hhd].
Qed.

Lemma slots_of_insert (z : Z) (c : UserCode) (l : list UserCode) :
  In z (slots_of (insert_by_slot c l)) <-> z = slot c \/ In z (slots_of l).
Proof.
  rewrite !In_slots_of. split.
  - intros [x [Hin Hx]]. apply In_insert_by_slot in Hin.
    destruct Hin as [-> | Hin]; [left; symmetry; exact Hx |].
    right. exists x. auto.
  - intros [-> | [x [Hin Hx]]].
    + exists c. split; [apply In_insert_by_slot; left |]; reflexivity.
    + exists x. split; [apply In_insert_by_slot; right |]; assumption.
Qed.

Lemma increasing_distinct (l : list UserCode) :
  Sorted Z.lt (slots_of l) -> NoDup (slots_of l).
Proof.
  intros Hs. apply Sorted_StronglySorted in Hs;
    [| intros x y z; apply Z.lt_trans].
  induction Hs as [| a l' Hs IH Hall]; constructor; [| exact IH].
  intros Hin. rewrite Forall_forall in Hall. specialize (Hall a Hin). lia.
Qed.

Lemma filter_increasing (f : UserCode -> bool) (l : list UserCode) :
  Sorted Z.lt (slots_of l) -> Sorted Z.lt (slots_of (filter f l)).
Proof.
  intros Hs. apply Sorted_StronglySorted in Hs;
    [| intros x y z; apply Z.lt_trans].
  apply StronglySorted_Sorted.
  induction l as [| y l IH]; cbn [filter]; [constructor |].
  apply StronglySorted_inv in Hs. destruct Hs as [Hs Hall].
  destruct (f y); [| apply IH; exact Hs].
  change (slots_of (y :: filter f l)) with (slot y :: slots_of (filter f l)).
  constructor; [apply IH; exact Hs |].
  rewrite Forall_forall in *. intros z Hz. apply Hall.
  apply In_slots_of in Hz. destruct Hz as [c [Hc Hz]].
  apply filter_In in Hc. apply In_slots_of. exists c. tauto.
Qed.

(** Pushing the record of a slot onto distinct other slots and sorting gives
    strictly increasing slots. *)
Lemma sort_pushed_increasing (c : UserCode) (kept : list UserCode) :
  NoDup (slots_of kept) -> ~ In (slot c) (slots_of kept) ->
  Sorted Z.lt (slots_of (sort_by_slot (kept ++ [c]))) /\
  forall z, In z (slots_of (sort_by_slot (kept ++ [c])))
            <-> z = slot c \/ In z (slots_of kept).
Proof.
  unfold sort_by_slot. rewrite fold_right_app. cbn [fold_right insert_by_slot].
  induction kept as [| y kept IH]; intros Hnd Hnew; cbn [fold_right].
  - split; [repeat constructor |]. intros z. cbn. intuition congruence.
  - change (slots_of (y :: kept)) with (slot y :: slots_of kept) in *.
    apply NoDup_cons_iff in Hnd. destruct Hnd as [Hy Hnd].
    destruct IH as [IHs IHin]; [exact Hnd | intros H; apply Hnew; right; exact H |].
    split.
    + apply insert_by_slot_increasing; [exact IHs |].
      rewrite IHin. intros [E | Hin]; [apply Hnew; left; exact E | contradiction].
    + intros z. rewrite slots_of_insert, IHin. cbn [In]. intuition congruence.
Qed.

Lemma filter_insert_other (f : UserCode -> bool) (c : UserCode)
    (l : list UserCode) :
  f c = false -> filter f (insert_by_slot c l) = filter f l.
Proof.
  intros Hc. induction l as [| y l IH]; cbn [insert_by_slot filter].
  - rewrite Hc. reflexivity.
  - destruct (slot c <=? slot y); cbn [filter].
    + rewrite Hc. reflexivity.
    + rewrite IH. reflexivity.
Qed.

Section StoreFile.

Context {G : AesGcm}.

(** What a call leaves in the store file. *)
Lemma run_op_file (op : StoreOp) (p : Proc) :
  file (snd (run_op op p)) = file p \/
  match op with
  | OpSave s label text =>
      exists blob,
        file (snd (run_op op p)) =
          Stored {| codes := sort_by_slot
                      (filter (fun c => negb (slot c =? s)) (codes (stored p))
                       ++ [{| slot := s; name := label; pin := blob |}]) |}
  | OpDelete s =>
      file (snd (run_op op p)) =
        Stored {| codes := filter (fun c => negb (slot c =? s))
                             (codes (stored p)) |}
  end.
Proof.
  destruct (shape_cases p) as [Hshape | Hshape];
    [left; rewrite (@run_op_misshapen G op p Hshape); reflexivity |].
  destruct op as [s label text | s]; cbn [run_op].
  - rewrite saveCode_run by exact Hshape.
    destruct (valid_pin text); [| left; reflexivity].
    destruct (encrypt_keeps_file text p) as [Hf _].
    destruct (encrypt text p) as [[blob | e] pe]; cbn [snd] in *;
      [| left; exact Hf].
    unfold saveStorage. destruct (writable pe); cbn [snd file];
      [right; exists blob; reflexivity | left; exact Hf].
  - rewrite (@deleteCode_run s p Hshape). unfold saveStorage.
    destruct (writable p); cbn [snd file]; [right | left]; reflexivity.
Qed.

Lemma run_op_shape (op : StoreOp) (p : Proc) :
  file p <> Misshapen -> file (snd (run_op op p)) <> Misshapen.
Proof.
  intros Hshape. destruct (run_op_file op p) as [Hsame | Hnew].
  - rewrite Hsame. exact Hshape.
  - destruct op as [s label text | s];
      [destruct Hnew as [blob Hnew] |]; rewrite Hnew; discriminate.
Qed.

Lemma run_ops_shape (ops : list StoreOp) (p : Proc) :
  file p <> Misshapen -> file (run_ops ops p) <> Misshapen.
Proof.
  revert p. induction ops as [| op rest IH]; intros p Hshape; [exact Hshape |].
  cbn [run_ops]. apply IH. apply run_op_shape. exact Hshape.
Qed.

Lemma run_ops_increasing (ops : list StoreOp) (p : Proc) :
  Sorted Z.lt (slots_of (codes (stored p))) ->
  Sorted Z.lt (slots_of (codes (stored (run_ops ops p)))).
Proof.
  revert p. induction ops as [| op rest IH]; intros p Hs; [exact Hs |].
  cbn [run_ops]. apply IH.
  destruct (run_op_file op p) as [Hsame | Hnew].
  - unfold stored in *. rewrite Hsame. exact Hs.
  - destruct op as [s label text | s].
    + destruct Hnew as [blob Hnew]. unfold stored at 1. rewrite Hnew.
      cbn [codes]. apply sort_pushed_increasing.
      * apply increasing_distinct, filter_increasing. exact Hs.
      * cbn [slot]. rewrite In_slots_of. intros [c [Hc Hz]].
        apply filter_In in Hc. destruct Hc as [_ Hc].
        apply negb_true_iff, Z.eqb_neq in Hc. contradiction.
    + unfold stored at 1. rewrite Hnew. cbn [codes].
      apply filter_increasing. exact Hs.
Qed.

End StoreFile.

(** X2.  If the store lists its slots in strictly increasing order, it still
    does after any sequence of [saveCode] and [deleteCode] calls, whether
    they succeed or throw: [getAllCodes] returns each slot at most once, in
    ascending order.  A store file that is missing, as at first use, is such
    a store. *)
Theorem store_slots_stay_increasing
    (G : AesGcm) (ops : list StoreOp) (p : Proc) (storage : CodeStorage) :
  loadStorage p = Storage storage ->
  Sorted Z.lt (slots_of (codes storage)) ->
  exists labels,
    fst (getAllCodes (run_ops ops p)) = Ok labels /\
    Sorted Z.lt (map label_slot labels) /\
    NoDup (map label_slot labels).
Proof.
  intros Hload Hs. apply loadStorage_inv in Hload.
  destruct Hload as [Hshape Hst]. rewrite <- Hst in Hs.
  pose proof (@run_ops_increasing G ops p Hs) as Hs'.
  pose proof (@run_ops_shape G ops p Hshape) as Hshape'.
  exists (map label_of (codes (stored (run_ops ops p)))).
  rewrite (@getAllCodes_run (run_ops ops p) Hshape').
  assert (Hmap : map label_slot
                   (map label_of (codes (stored (run_ops ops p))))
                 = slots_of (codes (stored (run_ops ops p))))
    by (unfold slots_of; rewrite map_map; reflexivity).
  rewrite Hmap.
  repeat split; [exact Hs' | apply increasing_distinct; exact Hs'].
Qed.

(** From the missing store file of the simulated process the calls leave
    slot 3 alone, listed once. *)
Lemma store_slots_stay_increasing_witness :
  exists labels,
    fst (getAllCodes (run_ops sim_ops sim_proc)) = Ok labels /\
    Sorted Z.lt (map label_slot labels) /\
    NoDup (map label_slot labels).
Proof.
  apply (@store_slots_stay_increasing sim_gcm sim_ops sim_proc
           {| codes := [] |} eq_refl).
  cbn. constructor.
Defined.

Section StoreWrites.

Context {G : AesGcm}.

Lemma filter_sort_pushed (s : Z) (c : UserCode) (kept : list UserCode) :
  slot c = s ->
  (forall x, In x kept -> slot x <> s) ->
  filter (fun x => slot x =? s) (sort_by_slot (kept ++ [c])) = [c].
Proof.
  intros Hc Hkept. unfold sort_by_slot. rewrite fold_right_app.
  cbn [fold_right insert_by_slot].
  induction kept as [| y kept IH]; cbn [fold_right].
  - cbn [filter]. rewrite Hc, Z.eqb_refl. reflexivity.
  - rewrite filter_insert_other.
    + apply IH. intros x Hx. apply Hkept. right. exact Hx.
    + apply Z.eqb_neq. apply Hkept. left. reflexivity.
Qed.

(** How a run of [saveCode] ends. *)
Lemma saveCode_cases (s : Z) (label text : string) (p : Proc) :
  (valid_pin text = true /\ file p <> Misshapen /\
   List.length (process_key p) = 32%nat /\
   writable p = true /\
   exists blob pe,
     encrypt text p = (Ok blob, pe) /\
     saveCode s label text p =
       (Ok tt,
        with_file
          (Stored {| codes := sort_by_slot
                       (filter (fun c => negb (slot c =? s)) (codes (stored p))
                        ++ [{| slot := s; name := label; pin := blob |}]) |})
          pe))
  \/
  (fst (saveCode s label text p) = Throw (saveCode_error text p) /\
   file (snd (saveCode s label text p)) = file p /\
   (valid_pin text = false \/ file p = Misshapen \/
    List.length (process_key p) <> 32%nat \/ writable p = false)).
Proof.
  unfold saveCode_error.
  destruct (valid_pin text) eqn:Hvalid; cbn [negb];
    [| right; rewrite (@saveCode_invalid_pin G s label text p Hvalid);
       cbn [fst snd]; auto].
  destruct (shape_cases p) as [Hshape | Hshape].
  - right. rewrite (@saveCode_misshapen G s label text p Hshape Hvalid).
    apply loadStorage_misshapen in Hshape. rewrite Hshape.
    apply loadStorage_misshapen in Hshape. cbn [fst snd]. auto.
  - rewrite (@loadStorage_stored p Hshape).
    destruct (List.length (process_key p) =? 32)%nat eqn:Hkey; cbn [negb].
    + apply Nat.eqb_eq in Hkey. destruct (writable p) eqn:Hw.
      * left. repeat split; try assumption.
        destruct (@saveCode_succeeds G s label text p Hshape Hvalid Hw Hkey)
          as [blob [pe [Henc [_ [_ Hrun]]]]].
        exists blob, pe. auto.
      * right. rewrite saveCode_run by exact Hshape. rewrite Hvalid.
        pose proof (encrypt_run text p) as Henc. cbv zeta in Henc.
        apply Nat.eqb_eq in Hkey. rewrite Hkey in Henc.
        destruct (encrypt_keeps_file text p) as [Hf [Hw' _]].
        rewrite Henc in *. cbn [snd] in Hf, Hw'. unfold saveStorage.
        rewrite Hw', Hw. cbn [fst snd]. repeat split; [exact Hf | tauto].
    + right. rewrite saveCode_run by exact Hshape. rewrite Hvalid.
      pose proof (encrypt_run text p) as Henc. cbv zeta in Henc.
      destruct (encrypt_keeps_file text p) as [Hf _].
      rewrite Hkey in Henc. rewrite Henc in *. cbn [fst snd] in *.
      apply Nat.eqb_neq in Hkey. repeat split; [exact Hf | tauto].
Qed.

End StoreWrites.



(** X4.  A successful [saveCode] of a slot leaves the records in
    non-decreasing slot order and exactly one record of that slot, the one
    just saved, even when the file held several or was out of order; of the
    other slots it keeps every record and adds none. *)
Theorem saveCode_replaces_only_its_slot
    (G : AesGcm) (s : Z) (label text : string) (p p' : Proc) :
  saveCode s label text p = (Ok tt, p') ->
  exists storage storage',
    loadStorage p = Storage storage /\
    loadStorage p' = Storage storage' /\
    Sorted Z.le (slots_of (codes storage')) /\
    (exists blob,
        filter (fun c => slot c =? s) (codes storage')
          = [{| slot := s; name := label; pin := blob |}]) /\
    (forall c, slot c <> s ->
               (In c (codes storage') <-> In c (codes storage))).
Proof.
  intros Hrun.
  destruct (saveCode_cases s label text p)
    as [[_ [Hshape [_ [_ [blob [pe [_ Hrun']]]]]]] | [Hthrow _]];
    [| rewrite Hrun in Hthrow; discriminate].
  rewrite Hrun in Hrun'. injection Hrun' as Hp'.
  exists (stored p).
  exists {| codes := sort_by_slot
              (filter (fun c => negb (slot c =? s)) (codes (stored p))
               ++ [{| slot := s; name := label; pin := blob |}]) |}.
  split; [apply loadStorage_stored; exact Hshape |].
  split; [rewrite Hp'; reflexivity |]. cbn [codes]. clear Hp'.
  split; [apply sort_by_slot_ordered |]. split.
  - exists blob. apply filter_sort_pushed; [reflexivity |].
    intros x Hx. apply filter_In in Hx. destruct Hx as [_ Hx].
    apply negb_true_iff, Z.eqb_neq in Hx. exact Hx.
  - intros c Hc. rewrite In_sort_by_slot, in_app_iff, filter_In.
    cbn [In]. apply Z.eqb_neq in Hc. rewrite Hc. cbn [negb].
    apply Z.eqb_neq in Hc. split.
    + intros [[H _] | [E | []]]; [exact H |]. subst c. cbn in Hc. congruence.
    + intros H. left. auto.
Qed.

(** Saving slot 3 over the edited file leaves slots 1, 3, 9 with the one new
    record of slot 3. *)
Lemma saveCode_replaces_only_its_slot_witness :
  exists storage',
    loadStorage (snd (saveCode 3 "Guest" "4321" sim_proc_edited))
      = Storage storage' /\
    slots_of (codes storage') = [1; 3; 9] /\
    exists blob,
      filter (fun c => slot c =? 3) (codes storage')
        = [{| slot := 3; name := "Guest"; pin := blob |}].
Proof.
  assert (Hrun : saveCode 3 "Guest" "4321" sim_proc_edited
                 = (Ok tt, snd (saveCode 3 "Guest" "4321" sim_proc_edited)))
    by (vm_compute; reflexivity).
  destruct (@saveCode_replaces_only_its_slot sim_gcm 3 "Guest" "4321"
              sim_proc_edited _ Hrun)
    as [storage [storage' [_ [Hload [_ [Hone _]]]]]].
  exists storage'. split; [exact Hload |]. split; [| exact Hone].
  assert (Hsame : Storage storage'
                  = loadStorage (snd (saveCode 3 "Guest" "4321" sim_proc_edited)))
    by (symmetry; exact Hload).
  vm_compute in Hsame. injection Hsame as ->. vm_compute. reflexivity.
Defined.

(** X5.  A store file that is missing, unreadable or not JSON reads as the
    empty store, and the next write replaces it: [deleteCode] leaves a file
    with no codes, and a successful [saveCode] leaves a file whose only
    record is the one saved.  Whatever the unparseable file held is gone. *)
Theorem unparseable_store_is_overwritten
    (G : AesGcm) (s : Z) (p : Proc) :
  file p = Missing \/ file p = Unreadable \/ file p = Corrupt ->
  writable p = true ->
  file (snd (deleteCode s p)) = Stored {| codes := [] |} /\
  forall label text,
    fst (saveCode s label text p) = Ok tt ->
    exists blob,
      file (snd (saveCode s label text p))
        = Stored {| codes := [{| slot := s; name := label; pin := blob |}] |}.
Proof.
  intros Hfile Hw.
  assert (Hload : stored p = {| codes := [] |})
    by (unfold stored; destruct Hfile as [-> | [-> | ->]]; reflexivity).
  assert (Hshape : file p <> Misshapen)
    by (destruct Hfile as [-> | [-> | ->]]; discriminate).
  split.
  - rewrite (@deleteCode_run s p Hshape).
    rewrite saveStorage_writable by exact Hw.
    rewrite Hload. reflexivity.
  - intros label text Hok.
    destruct (saveCode_cases s label text p)
      as [[_ [_ [_ [_ [blob [pe [_ Hrun]]]]]]] | [Hthrow _]];
      [| rewrite Hok in Hthrow; discriminate].
    exists blob. rewrite Hrun, Hload. reflexivity.
Qed.

(** The corrupt file of the simulated process becomes an empty store on
    [deleteCode 3]. *)
Lemma unparseable_store_is_overwritten_witness :
  file (snd (deleteCode 3 sim_proc_corrupt)) = Stored {| codes := [] |}.
Proof.
  apply (@unparseable_store_is_overwritten sim_gcm 3 sim_proc_corrupt).
  - right. right. reflexivity.
  - reflexivity.
Defined.






Section Readers.

Context {G : AesGcm}.

(** What [saveCode] stored, [getCode] gives back. *)
Lemma getCode_after_saveCode
    (ctr_involutive :
       forall key iv data, gcm_ctr key iv (gcm_ctr key iv data) = data)
    (tag_length :
       forall key iv data, List.length (gcm_tag key iv data) = AUTH_TAG_LENGTH)
    (s : Z) (label text : string) (p p' : Proc) :
  saveCode s label text p = (Ok tt, p') ->
  fst (getCode s p') = Ok (Some {| view_name := label; view_pin := text |}).
Proof.
  intros Hrun.
  destruct (saveCode_cases s label text p)
    as [[_ [_ [_ [_ [blob [pe [Henc Hrun']]]]]]] | [Hthrow _]];
    [| rewrite Hrun in Hthrow; discriminate].
  rewrite Hrun in Hrun'. injection Hrun' as ->.
  destruct (encrypt_keeps_file text p) as [_ [_ Hk]].
  rewrite Henc in Hk. cbn [snd] in Hk.
  rewrite getCode_run by (cbn [with_file file]; discriminate).
  unfold stored at 1. cbn [with_file file codes].
  rewrite find_sort_pushed by reflexivity. cbn [pin name].
  rewrite (@decrypt_after_encrypt G ctr_involutive tag_length p text blob pe
             _ Henc)
    by (rewrite process_key_with_file; apply process_key_cached; exact Hk).
  reflexivity.
Qed.

(** [getCode] on a record whose blob is laid out as IV, tag and payload. *)
Lemma getCode_opens_record (s : Z) (p : Proc) (code : UserCode)
    (iv tag payload : list byte) :
  file p <> Misshapen ->
  find (fun c => slot c =? s) (codes (stored p)) = Some code ->
  pin code = (to_hex iv ++ to_hex tag ++ to_hex payload)%string ->
  List.length iv = IV_LENGTH ->
  List.length tag = AUTH_TAG_LENGTH ->
  fst (getCode s p) =
    if (List.length (process_key p) =? 32)%nat
    then if list_eq_dec Byte.byte_eq_dec tag (gcm_tag (process_key p) iv payload)
         then Ok (Some {| view_name := name code;
                          view_pin :=
                            utf8_decode (gcm_ctr (process_key p) iv payload) |})
         else Throw AuthFailed
    else Throw InvalidKeyLength.
Proof.
  intros Hshape Hfind Hpin Hiv Htag.
  rewrite getCode_run by exact Hshape. rewrite Hfind, Hpin.
  rewrite (@decrypt_run G iv tag payload p Hiv Htag).
  destruct (List.length (process_key p) =? 32)%nat; [| reflexivity].
  destruct (list_eq_dec Byte.byte_eq_dec _ _); reflexivity.
Qed.

End Readers.

(** C9.  [getAllCodes] returns, for each record of the store in order, its
    slot and its name and nothing else, and does not touch the process
    state: two stores whose records agree on slots and names are listed
    alike whatever their blobs, and so are the stores two sequences of
    successful [saveCode] calls leave when the calls agree on slots and
    labels and differ in PINs, keys or entropy.  [getCode] is the reader
    that decrypts: it returns the name of the first record of the slot with
    what [decrypt] makes of its blob; that is the PIN [saveCode] was given,
    whenever the record is the one a [saveCode] stored under the process
    key; and on a record laid out as IV, tag and payload it is the payload
    with the counter mode undone under the process key when the key is 32
    bytes and the tag is the one GCM computes under that key, the
    authentication error when the tag is another, and the key-length error
    when the key is not 32 bytes. *)
Theorem getAllCodes_reveals_no_pin (G : AesGcm) :
  (forall (p : Proc) (storage : CodeStorage),
      loadStorage p = Storage storage ->
      getAllCodes p = (Ok (map label_of (codes storage)), p))
  /\
  (forall (p1 p2 : Proc) (storage1 storage2 : CodeStorage),
      loadStorage p1 = Storage storage1 ->
      loadStorage p2 = Storage storage2 ->
      map label_of (codes storage1) = map label_of (codes storage2) ->
      fst (getAllCodes p1) = fst (getAllCodes p2))
  /\
  (forall (calls1 calls2 : list (Z * string * string)) (p1 p2 : Proc)
          (storage1 storage2 : CodeStorage),
      map call_label calls1 = map call_label calls2 ->
      loadStorage p1 = Storage storage1 ->
      loadStorage p2 = Storage storage2 ->
      map label_of (codes storage1) = map label_of (codes storage2) ->
      fst (save_all calls1 p1) = Ok tt ->
      fst (save_all calls2 p2) = Ok tt ->
      fst (getAllCodes (snd (save_all calls1 p1)))
        = fst (getAllCodes (snd (save_all calls2 p2))))
  /\
  (forall (s : Z) (p : Proc) (storage : CodeStorage),
      loadStorage p = Storage storage ->
      fst (getCode s p) =
        match find (fun c => slot c =? s) (codes storage) with
        | None => Ok None
        | Some code =>
            match fst (decrypt (pin code) p) with
            | Ok plain =>
                Ok (Some {| view_name := name code; view_pin := plain |})
            | Throw e => Throw e
            end
        end)
  /\
  ((forall key iv data, gcm_ctr key iv (gcm_ctr key iv data) = data) ->
   (forall key iv data, List.length (gcm_tag key iv data) = AUTH_TAG_LENGTH) ->
   forall (s : Z) (label text : string) (p p' : Proc),
     saveCode s label text p = (Ok tt, p') ->
     fst (getCode s p')
       = Ok (Some {| view_name := label; view_pin := text |}))
  /\
  (forall (s : Z) (p : Proc) (storage : CodeStorage) (code : UserCode)
          (iv tag payload : list byte),
      loadStorage p = Storage storage ->
      find (fun c => slot c =? s) (codes storage) = Some code ->
      pin code = (to_hex iv ++ to_hex tag ++ to_hex payload)%string ->
      List.length iv = IV_LENGTH ->
      List.length tag = AUTH_TAG_LENGTH ->
      fst (getCode s p) =
        if (List.length (process_key p) =? 32)%nat
        then if list_eq_dec Byte.byte_eq_dec tag
                  (gcm_tag (process_key p) iv payload)
             then Ok (Some {| view_name := name code;
                              view_pin :=
                                utf8_decode
                                  (gcm_ctr (process_key p) iv payload) |})
             else Throw AuthFailed
        else Throw InvalidKeyLength).
Proof.
  assert (Hlist : forall (p : Proc) (storage : CodeStorage),
             loadStorage p = Storage storage ->
             getAllCodes p = (Ok (map label_of (codes storage)), p)).
  { intros p storage Hload. apply loadStorage_inv in Hload.
    destruct Hload as [Hshape <-]. apply getAllCodes_run. exact Hshape. }
  assert (Hstay : forall (calls : list (Z * string * string)) (p : Proc),
             file p <> Misshapen ->
             file (snd (save_all calls p)) <> Misshapen).
  { induction calls as [| [[s l] t] calls IH]; intros p Hshape;
      [exact Hshape |].
    cbn [save_all]. unfold bind.
    pose proof (@run_op_shape G (OpSave s l t) p Hshape) as Hq.
    cbn [run_op] in Hq.
    destruct (saveCode s l t p) as [[[] | e] q] eqn:E; cbn [snd] in *;
      [apply IH |]; exact Hq. }
  split; [exact Hlist |]. split; [| split; [| split; [| split]]].
  - intros p1 p2 st1 st2 H1 H2 Hl.
    rewrite (Hlist p1 st1 H1), (Hlist p2 st2 H2). cbn [fst].
    rewrite Hl. reflexivity.
  - intros calls1 calls2 p1 p2 st1 st2 Hcalls L1 L2 Hl H1 H2.
    apply loadStorage_inv in L1. destruct L1 as [S1 E1].
    apply loadStorage_inv in L2. destruct L2 as [S2 E2].
    rewrite <- E1, <- E2 in Hl.
    rewrite !getAllCodes_run by (apply Hstay; assumption). cbn [fst].
    f_equal. apply labels_after_save_all; assumption.
  - intros s p storage Hload. apply loadStorage_inv in Hload.
    destruct Hload as [Hshape <-].
    rewrite getCode_run by exact Hshape.
    destruct (find _ _) as [code |]; [| reflexivity].
    destruct (decrypt (pin code) p) as [[plain | e] p']; reflexivity.
  - intros Hctr Htag s label text p p' Hrun.
    exact (@getCode_after_saveCode G Hctr Htag s label text p p' Hrun).
  - intros s p storage code iv tag payload Hload Hfind Hpin Hiv Htag.
    apply loadStorage_inv in Hload. destruct Hload as [Hshape <-].
    exact (@getCode_opens_record G s p code iv tag payload
             Hshape Hfind Hpin Hiv Htag).
Qed.

(** Saving PINs 4321 and 000000, or 98765 and 13572468, under the same
    slots and labels gives the same listing, while [getCode 3] returns the
    PIN that was saved, the stored blob being no copy of it; and with the
    key of another process the record is refused. *)
Lemma getAllCodes_reveals_no_pin_witness :
  fst (getAllCodes (snd (save_all sim_calls_a sim_proc_keyed)))
    = fst (getAllCodes (snd (save_all sim_calls_b sim_proc_keyed)))
  /\
  fst (getAllCodes (snd (save_all sim_calls_a sim_proc_keyed)))
    = Ok [ {| label_slot := 1; label_name := "Owner" |};
           {| label_slot := 3; label_name := "Guest" |} ]
  /\
  fst (getCode 3 (snd (saveCode 3 "Guest" "98765" sim_proc_keyed)))
    = Ok (Some {| view_name := "Guest"; view_pin := "98765" |})
  /\
  fst (getCode 3 (with_file (file (snd (saveCode 3 "Guest" "98765"
                                          sim_proc_keyed)))
                            sim_proc))
    = Throw AuthFailed.
Proof.
  destruct (getAllCodes_reveals_no_pin sim_gcm)
    as [Hlist [_ [Hseq [_ [Hback Hopen]]]]].
  assert (Hrun : saveCode 3 "Guest" "98765" sim_proc_keyed
                 = (Ok tt, snd (saveCode 3 "Guest" "98765" sim_proc_keyed)))
    by (vm_compute; reflexivity).
  split; [| split; [| split]].
  - apply (Hseq sim_calls_a sim_calls_b sim_proc_keyed sim_proc_keyed
             {| codes := [] |} {| codes := [] |}); reflexivity.
  - rewrite (Hlist (snd (save_all sim_calls_a sim_proc_keyed))
               (stored (snd (save_all sim_calls_a sim_proc_keyed))))
      by (vm_compute; reflexivity).
    vm_compute. reflexivity.
  - apply (Hback sim_ctr_involutive sim_tag_length 3 "Guest" "98765"
             sim_proc_keyed _ Hrun).
  - rewrite (Hopen 3 _ (stored (snd (saveCode 3 "Guest" "98765" sim_proc_keyed)))
               {| slot := 3; name := "Guest";
                  pin := (to_hex (map sim_entropy (seq 0 16))
                          ++ to_hex (gcm_tag
                                       (process_key sim_proc_keyed)
                                       (map sim_entropy (seq 0 16))
                                       (gcm_ctr (process_key sim_proc_keyed)
                                          (map sim_entropy (seq 0 16))
                                          (utf8_encode "98765")))
                          ++ to_hex (gcm_ctr (process_key sim_proc_keyed)
                                       (map sim_entropy (seq 0 16))
                                       (utf8_encode "98765")))%string |}
               (map sim_entropy (seq 0 16))
               (gcm_tag (process_key sim_proc_keyed)
                  (map sim_entropy (seq 0 16))
                  (gcm_ctr (process_key sim_proc_keyed)
                     (map sim_entropy (seq 0 16)) (utf8_encode "98765")))
               (gcm_ctr (process_key sim_proc_keyed)
                  (map sim_entropy (seq 0 16)) (utf8_encode "98765")));
      try (vm_compute; reflexivity).
Defined.

Section KeyUse.

Context {G : AesGcm}.

Lemma run_op_key (op : StoreOp) (p : Proc) :
  process_key (snd (run_op op p)) = process_key p.
Proof.
  destruct (shape_cases p) as [Hshape | Hshape];
    [rewrite (@run_op_misshapen G op p Hshape); reflexivity |].
  destruct op as [s label text | s]; cbn [run_op].
  - rewrite saveCode_run by exact Hshape.
    destruct (valid_pin text); [| reflexivity].
    destruct (encrypt_keeps_file text p) as [_ [_ Hk]].
    destruct (encrypt text p) as [[blob | e] pe]; cbn [snd] in *.
    + unfold saveStorage. destruct (writable pe); cbn [snd];
        apply process_key_cached; exact Hk.
    + apply process_key_cached. exact Hk.
  - rewrite (@deleteCode_run s p Hshape). unfold saveStorage.
    destruct (writable p); reflexivity.
Qed.

Lemma run_ops_key (ops : list StoreOp) :
  forall p, process_key (run_ops ops p) = process_key p.
Proof.
  induction ops as [| op rest IH]; intros p; [reflexivity |].
  cbn [run_ops]. rewrite IH. apply run_op_key.
Qed.

End KeyUse.

(** X7.  The key is settled at its first use and kept for the life of the
    process.  With no key held yet, a non-empty [CODE_ENCRYPTION_KEY] is
    decoded from hex and no random byte is drawn; an unset or empty variable
    makes the key the next 32 random bytes.  Every later call gets that same
    key without touching the process, and no [saveCode], [deleteCode] or
    [getCode] changes it. *)
Theorem encryption_key_is_settled_once (G : AesGcm) (p : Proc) :
  (encryptionKey p = None ->
   forall c h, CODE_ENCRYPTION_KEY p = Some (String c h) ->
     getEncryptionKey p
       = (Ok (from_hex (String c h)), with_key (from_hex (String c h)) p))
  /\
  (encryptionKey p = None ->
   CODE_ENCRYPTION_KEY p = None \/ CODE_ENCRYPTION_KEY p = Some EmptyString ->
   fst (getEncryptionKey p) = Ok (map (entropy p) (seq 0 32)) /\
   List.length (map (entropy p) (seq 0 32)) = 32%nat /\
   forall i, entropy (snd (getEncryptionKey p)) i = entropy p (i + 32)%nat)
  /\
  getEncryptionKey (snd (getEncryptionKey p))
    = (fst (getEncryptionKey p), snd (getEncryptionKey p))
  /\
  (forall (ops : list StoreOp) (s : Z),
      process_key (run_ops ops p) = process_key p /\
      process_key (snd (getCode s (run_ops ops p))) = process_key p).
Proof.
  split; [| split; [| split]].
  - intros Hnone c h Henv. unfold getEncryptionKey, bind, gets.
    rewrite Hnone, Henv. reflexivity.
  - intros Hnone Henv. unfold getEncryptionKey, bind, gets.
    rewrite Hnone.
    destruct Henv as [-> | ->]; cbn [fst snd];
      (split; [reflexivity |]; split;
       [rewrite length_map, length_seq; reflexivity | reflexivity]).
  - destruct (getEncryptionKey_run p) as [q [E [Hk _]]].
    rewrite E. cbn [fst snd].
    destruct (getEncryptionKey_run q) as [q' [E' [_ [_ [_ [_ Hsame]]]]]].
    rewrite E'. rewrite (Hsame _ Hk). f_equal. f_equal.
    apply process_key_cached. exact Hk.
  - intros ops s. split; [apply run_ops_key |].
    destruct (shape_cases (run_ops ops p)) as [Hshape | Hshape];
      [rewrite (@getCode_misshapen G s _ Hshape); apply run_ops_key |].
    rewrite getCode_run by exact Hshape.
    destruct (find _ _) as [code |]; cbn [snd]; [| apply run_ops_key].
    destruct (decrypt_keeps (pin code) (run_ops ops p)) as [_ [_ Hk]].
    destruct (decrypt (pin code) (run_ops ops p)) as [[plain | e] q];
      cbn [snd] in *; rewrite Hk; apply run_ops_key.
Qed.

(** In the simulated process the key comes from the environment. *)
Lemma encryption_key_is_settled_once_witness :
  getEncryptionKey sim_proc
    = (Ok (from_hex sim_key_hex), with_key (from_hex sim_key_hex) sim_proc).
Proof.
  apply (proj1 (@encryption_key_is_settled_once sim_gcm sim_proc) eq_refl
           "0"%char
           "00102030405060708090a0b0c0d0e0f101112131415161718191a1b1c1d1e1f").
  reflexivity.
Defined.

(* ================================================================== *)
(** * What the user-code commands send *)
(* ================================================================== *)

(** X8.  Whatever the lock does, [setUserCode] sends one of three things:
    nothing, when the node or its command class is missing (the device is
    then untouched); the capability query, the slot read and the set
    command, when the set command fails (no wait and no read-back follow);
    or those three, the 5000 ms wait and the read-back.  So it never clears
    a slot, and the only set command it sends carries the slot and code it
    was given with status 1.  Its result is success, node not found, no
    command class, the transport's error or the rejection. *)
Theorem setUserCode_sends_one_set_and_no_clear
    (D : Type) (driver : Driver D) (nodeId slot : Z) (code : string)
    (w : World D) :
  let r := fst (setUserCode driver nodeId slot code w) in
  let w' := snd (setUserCode driver nodeId slot code w) in
  exists l,
    sent w' = sent w ++ l /\
    ((l = [] /\ dev w' = dev w /\
      (r = Throw (NodeNotFound nodeId) \/ r = Throw (NoUserCodeCC nodeId)))
     \/
     (l = [EvGetCapabilities; EvGet slot; EvSet slot 1 code] /\
      exists msg, r = Throw (CommandError msg))
     \/
     (l = set_code_events slot code /\
      (r = Ok tt \/ (exists msg, r = Throw (CommandError msg))
       \/ exists st, r = Throw (LockRejected slot st))))
    /\
    (forall s, ~ In (EvClear s) l) /\
    (forall s st c, In (EvSet s st c) l -> s = slot /\ st = 1 /\ c = code).
Proof.
  cbv zeta.
  assert (Hshape : forall l,
    l = [] \/ l = [EvGetCapabilities; EvGet slot; EvSet slot 1 code]
    \/ l = set_code_events slot code ->
    (forall s, ~ In (EvClear s) l) /\
    (forall s st c, In (EvSet s st c) l -> s = slot /\ st = 1 /\ c = code)).
  { intros l Hl. split.
    - intros s Hin.
      destruct Hl as [-> | [-> | ->]]; unfold set_code_events in Hin;
        cbn [In] in Hin; intuition congruence.
    - intros s st c Hin.
      destruct Hl as [-> | [-> | ->]]; unfold set_code_events in Hin;
        cbn [In] in Hin; intuition congruence. }
  destruct (nodes driver nodeId) as [node |] eqn:Hn.
  - destruct (userCodeCommandClass node) as [cc |] eqn:Hc.
    + rewrite (@setUserCode_run _ driver nodeId slot code node cc w Hn Hc).
      destruct (after_set cc slot code (dev w)) as [[u | msg] d3].
      * exists (set_code_events slot code). cbv zeta.
        destruct (get cc slot d3) as [[v | msg] d4]; cbn [fst snd].
        -- destruct (not_occupied v); cbn [fst snd sent];
             (split; [reflexivity |]; split;
              [right; right; split; [reflexivity |] | apply Hshape; auto]).
           ++ right. right. eexists. reflexivity.
           ++ left. reflexivity.
        -- cbn [sent]. split; [reflexivity |]. split;
             [| apply Hshape; auto].
           right. right. split; [reflexivity |]. right. left.
           eexists. reflexivity.
      * exists [EvGetCapabilities; EvGet slot; EvSet slot 1 code].
        cbn [fst snd sent]. split; [reflexivity |]. split;
          [| apply Hshape; auto].
        right. left. split; [reflexivity |]. eexists. reflexivity.
    + exists []. unfold setUserCode. rewrite Hn, Hc. cbn [throw fst snd].
      rewrite app_nil_r. split; [reflexivity |]. split; [| apply Hshape; auto].
      left. auto.
  - exists []. unfold setUserCode. rewrite Hn. cbn [throw fst snd].
    rewrite app_nil_r. split; [reflexivity |]. split; [| apply Hshape; auto].
    left. auto.
Qed.

Lemma slots_upto_increasing (maxSlots : Z) :
  StronglySorted Z.lt (slots_upto maxSlots).
Proof.
  unfold slots_upto. generalize 1%nat as a.
  induction (Z.to_nat maxSlots) as [| n IH]; intros a; cbn [seq map];
    constructor; [apply IH |].
  apply Forall_forall. intros z Hz. apply in_map_iff in Hz.
  destruct Hz as [k [<- Hk]]. apply in_seq in Hk. lia.
Qed.

Lemma entries_of_slots (answers : list (Z * Reply (option UserCodeData)))
    (e : CodeEntry) :
  In e (entries_of answers) -> In (entry_slot e) (map fst answers).
Proof.
  intros He. apply entries_of_spec in He. destruct He as [data [Hin _]].
  apply in_map_iff. exists (entry_slot e, Answer (Some data)). auto.
Qed.

Lemma entries_of_increasing (answers : list (Z * Reply (option UserCodeData))) :
  StronglySorted Z.lt (map fst answers) ->
  StronglySorted Z.lt (map entry_slot (entries_of answers)).
Proof.
  induction answers as [| [s r] rest IH]; intros Hs; [constructor |].
  cbn [map fst] in Hs. apply StronglySorted_inv in Hs. destruct Hs as [Hs Hall].
  specialize (IH Hs). cbn [entries_of].
  destruct r as [[data |] | msg]; try exact IH.
  destruct (userIdStatus data =? 0); [exact IH |].
  cbn [map entry_slot]. constructor; [exact IH |].
  rewrite Forall_forall in *. intros z Hz. apply Hall.
  apply in_map_iff in Hz. destruct Hz as [e [<- He]].
  apply entries_of_slots. exact He.
Qed.

(** X9.  What [getUserCodes] returns lists its slots in strictly increasing
    order, so no slot appears twice; every entry has a slot of at least 1
    and a status other than 0.  When the lock does not answer the question
    of how many users it supports, the error is rethrown and no slot is
    queried; and a node that is missing or has no User Code command class
    is sent nothing. *)
Theorem getUserCodes_lists_each_slot_once
    (D : Type) (driver : Driver D) (nodeId : Z) (w : World D) :
  (forall entries,
      fst (getUserCodes driver nodeId w) = Ok entries ->
      StronglySorted Z.lt (map entry_slot entries) /\
      NoDup (map entry_slot entries) /\
      forall e, In e entries -> 1 <= entry_slot e /\ entry_status e <> 0)
  /\
  (forall node cc msg d1,
      nodes driver nodeId = Some node ->
      userCodeCommandClass node = Some cc ->
      getUsersCount cc (dev w) = (Fails msg, d1) ->
      getUserCodes driver nodeId w
        = (Throw (CommandError msg),
           {| dev := d1; proc := proc w;
              sent := sent w ++ [EvGetUsersCount] |}))
  /\
  (nodes driver nodeId = None \/
   (exists node, nodes driver nodeId = Some node /\
                 userCodeCommandClass node = None) ->
   snd (getUserCodes driver nodeId w) = w /\
   exists e, fst (getUserCodes driver nodeId w) = Throw e).
Proof.
  split; [| split].
  - intros entries Hok. unfold getUserCodes in Hok.
    destruct (nodes driver nodeId) as [node |]; [| discriminate Hok].
    destruct (userCodeCommandClass node) as [cc |]; [| discriminate Hok].
    unfold bind, call in Hok. cbn [fst snd] in Hok.
    destruct (getUsersCount cc (dev w)) as [[n | msg] d1];
      cbn [thrown fst snd] in Hok; [| discriminate Hok].
    rewrite query_slots_run in Hok. cbn [fst dev app] in Hok.
    injection Hok as <-.
    set (answers := fst (poll cc (slots_upto (maxSlots_of n)) d1)).
    assert (Hsorted : StronglySorted Z.lt (map entry_slot (entries_of answers))).
    { apply entries_of_increasing. unfold answers. rewrite poll_slots.
      apply slots_upto_increasing. }
    split; [exact Hsorted |]. split.
    + clear -Hsorted. induction Hsorted as [| a l Hs IH Hall];
        constructor; [| exact IH].
      intros Hin. rewrite Forall_forall in Hall. specialize (Hall a Hin). lia.
    + intros e He. split.
      * apply entries_of_slots in He. unfold answers in He.
        rewrite poll_slots in He. apply slots_upto_spec in He. lia.
      * apply entries_of_spec in He. destruct He as [data [_ [Hne Hst]]].
        rewrite Hst. exact Hne.
  - intros node cc msg d1 Hn Hc Hcount. unfold getUserCodes.
    rewrite Hn, Hc. unfold bind, call. rewrite Hcount. reflexivity.
  - intros [Hn | [node [Hn Hc]]]; unfold getUserCodes.
    + rewrite Hn. split; [reflexivity | eexists; reflexivity].
    + rewrite Hn, Hc. split; [reflexivity | eexists; reflexivity].
Qed.

(** The list of the lock that cannot be queried on slot 2 is in order. *)
Lemma getUserCodes_lists_each_slot_once_witness :
  StronglySorted Z.lt (map entry_slot
    [ {| entry_slot := 1; entry_status := 1 |};
      {| entry_slot := 3; entry_status := 1 |} ]).
Proof.
  apply (proj1 (@getUserCodes_lists_each_slot_once (list Z) (sim_driver flaky) 8
                  {| dev := [1; 2; 3]; proc := sim_proc; sent := [] |})
               [ {| entry_slot := 1; entry_status := 1 |};
                 {| entry_slot := 3; entry_status := 1 |} ]).
  reflexivity.
Defined.

(** A run of [setUserCode] on the accepting lock sends no clear. *)
Lemma setUserCode_sends_one_set_and_no_clear_witness :
  exists l,
    sent (snd (setUserCode (sim_driver accepting) 8 3 "4321" (sim_world sim_proc)))
      = [] ++ l /\
    (forall s, ~ In (EvClear s) l).
Proof.
  destruct (@setUserCode_sends_one_set_and_no_clear (list Z)
              (sim_driver accepting) 8 3 "4321" (sim_world sim_proc))
    as [l [Hsent [_ [Hclear _]]]].
  exists l. split; [exact Hsent | exact Hclear].
Defined.

(* ================================================================== *)
(** * Connecting, shutting down and scoped use of the driver *)
(* ================================================================== *)

Lemma initializeDriver_ready_state (config : Config) (retry : bool)
    (c : ascii) (port : string) (s : Mgr) :
  serialPort config = Some (String c port) ->
  reachable s ->
  let s' := snd (initializeDriver config retry BecomesReady s) in
  fst (initializeDriver config retry BecomesReady s) = Ok (fresh s) /\
  driverInstance s' = Some (fresh s) /\
  pending s' = [] /\ reconnectTimeout s' = None /\
  isReconnecting s' = false /\
  readied s' = S (readied s).
Proof.
  intros Hport Hr. cbv zeta. unfold initializeDriver. rewrite Hport.
  cbn [new_driver fst snd init_done on_driver_ready driverInstance pending
       reconnectTimeout isReconnecting readied].
  pose proof (reachable_timers_ok Hr) as Hok. unfold timers_ok in Hok.
  repeat split.
  destruct (reconnectTimeout s) as [t |]; rewrite Hok;
    [apply disarm_only | reflexivity].
Qed.

Lemma shutdownDriver_idle (destroyed : bool) (s : Mgr) :
  reachable s ->
  idle (shutdownDriver destroyed s) /\
  driverInstance (shutdownDriver destroyed s)
    = (if destroyed then None else driverInstance s) /\
  readied (shutdownDriver destroyed s) = readied s.
Proof.
  intros Hr. pose proof (reachable_timers_ok Hr) as Hok.
  unfold timers_ok in Hok. unfold shutdownDriver, idle.
  destruct (reconnectTimeout s) as [t |] eqn:Ht.
  - cbn [timer_begin driverInstance].
    destruct (driverInstance s) as [d |] eqn:Hd; [destruct destroyed |];
      cbn [drop_driver timer_begin driverInstance reconnectTimeout pending
           isReconnecting readied fresh];
      rewrite ?Hd, ?Hok, ?disarm_only;
      repeat split; destruct destroyed; reflexivity.
  - destruct (driverInstance s) as [d |] eqn:Hd; [destruct destroyed |];
      cbn [drop_driver driverInstance reconnectTimeout pending isReconnecting
           readied fresh];
      rewrite ?Ht, ?Hd, ?Hok;
      repeat split; destruct destroyed; reflexivity.
Qed.

(** X10.  Without a serial port (absent or empty) [initializeDriver] throws
    the configuration error and changes nothing, whatever the retry flag:
    no driver is made and no reconnect is scheduled.  With a port, a start
    that becomes ready returns a new driver and leaves the manager with that
    driver, no timer pending, no reconnection under way. *)
Theorem initializeDriver_ready_or_config_error
    (config : Config) (retry : bool) (outcome : StartOutcome) (s : Mgr) :
  (serialPort config = None \/ serialPort config = Some EmptyString ->
   initializeDriver config retry outcome s = (Throw ConfigError, s))
  /\
  (forall c port,
      serialPort config = Some (String c port) ->
      reachable s ->
      let s' := snd (initializeDriver config retry BecomesReady s) in
      fst (initializeDriver config retry BecomesReady s) = Ok (fresh s) /\
      driverInstance s' = Some (fresh s) /\
      pending s' = [] /\ reconnectTimeout s' = None /\
      isReconnecting s' = false /\
      readied s' = S (readied s)).
Proof.
  split.
  - intros [H | H]; unfold initializeDriver; rewrite H; reflexivity.
  - intros c port Hport Hr.
    apply (@initializeDriver_ready_state config retry c port s Hport Hr).
Qed.

(** From the initial state a start that becomes ready leaves driver 0. *)
Lemma initializeDriver_ready_or_config_error_witness :
  initializeDriver {| serialPort := None |} true BecomesReady initial_mgr
    = (Throw ConfigError, initial_mgr)
  /\
  driverInstance (snd (initializeDriver sim_config true BecomesReady initial_mgr))
    = Some 0%nat.
Proof.
  destruct (initializeDriver_ready_or_config_error sim_config true BecomesReady
              initial_mgr) as [_ Hready].
  destruct (initializeDriver_ready_or_config_error {| serialPort := None |}
              true BecomesReady initial_mgr) as [Hconfig _].
  split.
  - apply Hconfig. left. reflexivity.
  - apply (Hready "/"%char "dev/ttyACM0" eq_refl reach_init).
Defined.

(** X11.  A failed start is always rethrown to the caller as it is.  From a
    manager with no timer and no reconnection under way, it schedules a
    reconnect, one timer, exactly when retry is enabled and the error
    message contains "timeout", "serial port" or "ENOENT"; the ready
    time-out always qualifies.  Any other failure, or a failure with retry
    disabled, leaves the manager idle: nothing will try again. *)
Theorem failed_start_schedules_one_retry
    (config : Config) (retry : bool) (outcome : StartOutcome) (msg : string)
    (c : ascii) (port : string) (s : Mgr) :
  serialPort config = Some (String c port) ->
  failure_message outcome = Some msg ->
  idle s ->
  let s' := snd (initializeDriver config retry outcome s) in
  fst (initializeDriver config retry outcome s) = Throw (StartError msg) /\
  driverInstance s' = driverInstance s /\
  readied s' = readied s /\
  (retry && retryable msg = true ->
   pending s' = [S (fresh s)] /\ reconnectTimeout s' = Some (S (fresh s)) /\
   isReconnecting s' = true) /\
  (retry && retryable msg = false -> idle s') /\
  retryable ready_timeout_message = true.
Proof.
  intros Hport Hmsg [Ht [Hp Hflag]]. cbv zeta.
  assert (Hrun : initializeDriver config retry outcome s
                 = (Throw (StartError msg),
                    init_catch retry msg (snd (new_driver s)))).
  { unfold initializeDriver. rewrite Hport. cbn [new_driver snd].
    destruct outcome; cbn [failure_message] in Hmsg;
      try discriminate Hmsg; injection Hmsg as <-; reflexivity. }
  rewrite Hrun. cbn [fst snd new_driver]. unfold init_catch.
  cbn [isReconnecting]. rewrite Hflag. cbn [negb]. rewrite andb_true_r.
  fold (retryable msg).
  destruct retry; cbn [andb]; [destruct (retryable msg) |];
    unfold scheduleReconnect, idle;
    cbn [reconnectTimeout pending isReconnecting driverInstance readied fresh];
    rewrite ?Ht, ?Hp;
    cbn [reconnectTimeout pending isReconnecting driverInstance readied fresh app];
    repeat split; auto; try discriminate.
Qed.

(** The unplugged dongle schedules one retry from the initial state; an
    error of another kind schedules none. *)
Lemma failed_start_schedules_one_retry_witness :
  pending (snd (initializeDriver sim_config true unplugged initial_mgr))
    = [1%nat]
  /\
  idle (snd (initializeDriver sim_config true (StartThrows "Invalid home id")
               initial_mgr)).
Proof.
  split.
  - apply (@failed_start_schedules_one_retry sim_config true unplugged
             "Failed to open the serial port: ENOENT" "/"%char "dev/ttyACM0"
             initial_mgr eq_refl eq_refl (conj eq_refl (conj eq_refl eq_refl))).
    reflexivity.
  - apply (@failed_start_schedules_one_retry sim_config true
             (StartThrows "Invalid home id") "Invalid home id" "/"%char
             "dev/ttyACM0" initial_mgr eq_refl eq_refl
             (conj eq_refl (conj eq_refl eq_refl))).
    reflexivity.
Defined.



(** X13.  [withDriver] runs the function only on a driver that became
    ready, hands its outcome to the caller, value or exception alike, and
    has shut the driver down by then: nothing is pending afterwards.  When
    the start fails, the function is not run and, the start being outside
    the [try], neither is the shutdown: the error is rethrown, and from an
    idle manager a retryable failure leaves its reconnect timer armed. *)
Theorem withDriver_shuts_down_after_use
    (T : Type) (config : Config) (c : ascii) (port : string)
    (fn : nat -> Res T) (destroyed : bool) (s : Mgr) :
  serialPort config = Some (String c port) ->
  reachable s ->
  (let run := withDriver config BecomesReady fn destroyed s in
   fst run = fn (fresh s) /\ idle (snd run) /\
   driverInstance (snd run) = (if destroyed then None else Some (fresh s)))
  /\
  (forall outcome msg,
      failure_message outcome = Some msg ->
      let run := withDriver config outcome fn destroyed s in
      fst run = Throw (StartError msg) /\
      (idle s -> retryable msg = true ->
       pending (snd run) = [S (fresh s)] /\ isReconnecting (snd run) = true)).
Proof.
  intros Hport Hr. split.
  - cbv zeta. unfold withDriver.
    destruct (@initializeDriver_ready_state config true c port s Hport Hr)
      as [Hok [Hd _]].
    pose proof (@initializeDriver_reachable config true BecomesReady s Hr) as Hr'.
    destruct (initializeDriver config true BecomesReady s) as [r s1].
    cbn [fst snd] in *. subst r.
    destruct (@shutdownDriver_idle destroyed s1 Hr') as [Hidle [Hdrv _]].
    cbn [fst snd]. rewrite Hdrv, Hd. auto.
  - intros outcome msg Hmsg. cbv zeta. unfold withDriver.
    assert (Hrun : initializeDriver config true outcome s
                   = (Throw (StartError msg),
                      init_catch true msg (snd (new_driver s)))).
    { unfold initializeDriver. rewrite Hport. cbn [new_driver snd].
      destruct outcome; cbn [failure_message] in Hmsg;
        try discriminate Hmsg; injection Hmsg as <-; reflexivity. }
    rewrite Hrun. cbn [fst snd]. split; [reflexivity |].
    intros [Ht [Hp Hflag]] Hretry. unfold init_catch.
    cbn [new_driver snd isReconnecting]. rewrite Hflag. cbn [andb negb].
    fold (retryable msg). rewrite Hretry. unfold scheduleReconnect.
    cbn [reconnectTimeout pending isReconnecting fresh]. rewrite Ht, Hp.
    cbn [pending isReconnecting app]. auto.
Qed.

(** A start that fails leaves the retry armed behind [withDriver]; a
    function that throws on a ready driver is still followed by the
    shutdown. *)
Lemma withDriver_shuts_down_after_use_witness :
  pending (snd (withDriver sim_config unplugged
                  (fun _ => Ok tt) true initial_mgr)) = [1%nat]
  /\
  idle (snd (withDriver sim_config BecomesReady
               (fun _ => @Throw unit (NodeNotFound 8)) true initial_mgr)).
Proof.
  destruct (@withDriver_shuts_down_after_use unit sim_config "/"%char
              "dev/ttyACM0" (fun _ => Ok tt) true initial_mgr eq_refl
              reach_init) as [_ Hfail].
  destruct (@withDriver_shuts_down_after_use unit sim_config "/"%char
              "dev/ttyACM0" (fun _ => @Throw unit (NodeNotFound 8)) true
              initial_mgr eq_refl reach_init) as [Hok _].
  split.
  - apply (Hfail unplugged "Failed to open the serial port: ENOENT" eq_refl).
    + repeat split.
    + reflexivity.
  - apply Hok.
Defined.

(* ================================================================== *)
(** * The configuration file and its security keys *)
(* ================================================================== *)

(** A run of [loadConfig] on a file that has keys. *)
Lemma generateSecurityKeys_run (env : CfgEnv) :
  generateSecurityKeys env = (Ok (keys_drawn env), drawn 64 env).
Proof. reflexivity. Qed.

(** A run of [loadConfig] on a file that holds an object with keys. *)
Lemma loadConfig_with_keys (keys : SecurityKeys) (config : StoredConfig)
    (env : CfgEnv) :
  config_file env = ConfigJson config ->
  securityKeys config = Some keys ->
  loadConfig env = (Ok (ObjectValue config), env).
Proof.
  intros Hf Hk. unfold loadConfig, bind, gets. rewrite Hf.
  cbn [parse_config get_securityKeys]. unfold ret. rewrite Hk. reflexivity.
Qed.

(** A run of [loadConfig] that starts from an object without keys. *)
Lemma loadConfig_without_keys (start : StoredConfig) (env : CfgEnv) :
  parse_config (config_file env) = ObjectValue start ->
  securityKeys start = None ->
  let config := {| stored_serialPort := stored_serialPort start;
                   securityKeys := Some (keys_drawn env) |} in
  loadConfig env =
    (if config_writable env then Ok (ObjectValue config) else Throw WriteError,
     {| config_file := if config_writable env then ConfigJson config
                       else config_file env;
        config_writable := config_writable env;
        config_entropy := fun i => config_entropy env (64 + i)%nat |}).
Proof.
  intros Hparse Hk. cbv zeta. unfold loadConfig. unfold bind at 1. unfold gets.
  rewrite Hparse. cbn [get_securityKeys]. unfold bind at 1. unfold ret at 1.
  rewrite Hk. unfold bind at 1. rewrite generateSecurityKeys_run.
  cbn [set_securityKeys]. unfold bind, ret, saveConfig, drawn.
  cbn [config_file config_writable config_entropy stringify_config].
  destruct (config_writable env); reflexivity.
Qed.

Lemma updateSerialPort_with_keys (keys : SecurityKeys) (config : StoredConfig)
    (port : string) (env : CfgEnv) :
  config_file env = ConfigJson config ->
  securityKeys config = Some keys ->
  updateSerialPort port env =
    if config_writable env
    then (Ok tt,
          {| config_file :=
               ConfigJson {| stored_serialPort := Some port;
                             securityKeys := Some keys |};
             config_writable := config_writable env;
             config_entropy := config_entropy env |})
    else (Throw WriteError, env).
Proof.
  intros Hf Hkeys. unfold updateSerialPort. unfold bind at 1.
  rewrite (@loadConfig_with_keys keys config env Hf Hkeys).
  cbn [set_serialPort]. unfold bind, ret, saveConfig. rewrite Hkeys.
  destruct (config_writable env); reflexivity.
Qed.

Lemma run_config_op_keeps_keys (keys : SecurityKeys) (op : ConfigOp)
    (env : CfgEnv) :
  holds_keys keys env ->
  holds_keys keys (run_config_op op env) /\
  config_entropy (run_config_op op env) = config_entropy env /\
  config_writable (run_config_op op env) = config_writable env.
Proof.
  intros Hk. destruct Hk as [config [Hf Hkeys]].
  assert (Hk : holds_keys keys env) by (exists config; auto).
  destruct op as [| port]; cbn [run_config_op].
  - rewrite (@loadConfig_with_keys keys config env Hf Hkeys). cbn [snd]. auto.
  - rewrite (@updateSerialPort_with_keys keys config port env Hf Hkeys).
    destruct (config_writable env) eqn:Hw; cbn [snd];
      [| repeat split; try assumption; reflexivity].
    split; [| split; reflexivity].
    eexists. split; reflexivity.
Qed.

(** X14.  Security keys are generated at most once.  Once [config.json]
    holds keys, no sequence of [loadConfig] and [updateSerialPort] calls
    changes them or draws a random byte: every [loadConfig] returns those
    keys and leaves everything as it was.  [updateSerialPort] keeps the keys
    and, when the file can be written, the next [loadConfig] returns the new
    port; when it cannot, the write error is thrown and the file is
    unchanged. *)
Theorem security_keys_are_never_regenerated
    (keys : SecurityKeys) (env : CfgEnv) :
  holds_keys keys env ->
  (forall ops : list ConfigOp,
      let env' := run_config_ops ops env in
      holds_keys keys env' /\
      config_entropy env' = config_entropy env /\
      exists config,
        loadConfig env' = (Ok (ObjectValue config), env') /\
        securityKeys config = Some keys)
  /\
  (forall port : string,
      if config_writable env
      then fst (loadConfig (snd (updateSerialPort port env)))
           = Ok (ObjectValue {| stored_serialPort := Some port;
                                securityKeys := Some keys |})
      else updateSerialPort port env = (Throw WriteError, env)).
Proof.
  intros Hk. split.
  - intros ops. cbv zeta. unfold run_config_ops.
    assert (Hinv : holds_keys keys (fold_left (fun e op => run_config_op op e) ops env)
                   /\ config_entropy (fold_left (fun e op => run_config_op op e) ops env)
                      = config_entropy env).
    { revert env Hk. induction ops as [| op rest IH]; intros env Hk;
        cbn [fold_left]; [auto |].
      destruct (run_config_op_keeps_keys op Hk) as [Hk' [He _]].
      destruct (IH _ Hk') as [Hk'' He'']. split; [exact Hk'' |].
      rewrite He''. exact He. }
    destruct Hinv as [Hk' He]. split; [exact Hk' |]. split; [exact He |].
    destruct Hk' as [config [Hf Hkeys]]. exists config.
    split; [apply (@loadConfig_with_keys keys config _ Hf Hkeys) | exact Hkeys].
  - intros port. destruct Hk as [config [Hf Hkeys]].
    rewrite (@updateSerialPort_with_keys keys config port env Hf Hkeys).
    destruct (config_writable env) eqn:Hw; [| reflexivity].
    cbn [snd].
    rewrite (@loadConfig_with_keys keys
               {| stored_serialPort := Some port; securityKeys := Some keys |});
      reflexivity.
Qed.

(** X15.  When [config.json] is missing, unreadable, not JSON or holds an
    object without keys, and can be written, [loadConfig] draws 64 random
    bytes, makes of each 16 a key of 32 hex digits, stores the configuration
    and returns it; [getSecurityKeysAsBuffers] gives back those four 16-byte
    blocks, in order.  The port of an object that parsed is kept; a file
    that did not parse is replaced by one with no port.  A second
    [loadConfig] returns the same configuration.  When the file cannot be
    written the write error is thrown and the keys are not kept. *)
Theorem first_loadConfig_generates_keys
    (env : CfgEnv) (start : StoredConfig) :
  parse_config (config_file env) = ObjectValue start ->
  securityKeys start = None ->
  (config_writable env = true ->
   exists config env1,
     loadConfig env = (Ok (ObjectValue config), env1) /\
     config_file env1 = ConfigJson config /\
     stored_serialPort config = stored_serialPort start /\
     getSecurityKeysAsBuffers config
       = Some [entropy_block env 0; entropy_block env 16;
               entropy_block env 32; entropy_block env 48] /\
     (exists keys,
         securityKeys config = Some keys /\
         String.length (S2_AccessControl keys) = 32%nat /\
         String.length (S2_Authenticated keys) = 32%nat /\
         String.length (S2_Unauthenticated keys) = 32%nat /\
         String.length (S0_Legacy keys) = 32%nat) /\
     (forall i, config_entropy env1 i = config_entropy env (64 + i)%nat) /\
     loadConfig env1 = (Ok (ObjectValue config), env1))
  /\
  (config_writable env = false ->
   fst (loadConfig env) = Throw WriteError /\
   config_file (snd (loadConfig env)) = config_file env)
  /\
  (config_file env = NoConfig \/ config_file env = BadConfig ->
   start = {| stored_serialPort := None; securityKeys := None |}).
Proof.
  intros Hparse Hnone.
  pose proof (@loadConfig_without_keys start env Hparse Hnone) as Hrun.
  cbv zeta in Hrun. split; [| split].
  - intros Hw; rewrite Hw in Hrun.
    eexists. eexists. split; [exact Hrun |].
    split; [reflexivity |]. split; [reflexivity |]. split.
    + unfold getSecurityKeysAsBuffers, keys_drawn.
      cbn [securityKeys S2_AccessControl S2_Authenticated S2_Unauthenticated
           S0_Legacy].
      rewrite !from_hex_to_hex. reflexivity.
    + split.
      * eexists. split; [reflexivity |]. unfold keys_drawn.
        cbn [S2_AccessControl S2_Authenticated S2_Unauthenticated S0_Legacy].
        unfold entropy_block. rewrite !to_hex_length, !length_map, !length_seq.
        repeat split.
      * split; [reflexivity |].
        apply (@loadConfig_with_keys (keys_drawn env)); reflexivity.
  - intros Hw; rewrite Hw in Hrun. rewrite Hrun. cbn [fst snd config_file].
    auto.
  - intros [Hf | Hf]; rewrite Hf in Hparse; cbn [parse_config] in Hparse;
      congruence.
Qed.

(** On a fresh installation the keys are made from the first 64 random
    bytes, and a later change of port keeps them. *)
Lemma first_loadConfig_generates_keys_witness :
  exists config env1,
    loadConfig sim_env = (Ok (ObjectValue config), env1) /\
    config_file env1 = ConfigJson config /\
    getSecurityKeysAsBuffers config
      = Some [entropy_block sim_env 0; entropy_block sim_env 16;
              entropy_block sim_env 32; entropy_block sim_env 48].
Proof.
  destruct (proj1 (@first_loadConfig_generates_keys sim_env
                     {| stored_serialPort := None; securityKeys := None |}
                     eq_refl eq_refl) eq_refl)
    as [config [env1 [Hrun [Hfile [_ [Hbuf _]]]]]].
  exists config, env1. auto.
Defined.

Lemma security_keys_are_never_regenerated_witness :
  let env1 := snd (loadConfig sim_env) in
  exists keys config,
    holds_keys keys env1 /\
    loadConfig (run_config_ops [CfgSetPort "/dev/ttyACM0"; CfgLoad] env1)
      = (Ok (ObjectValue config),
         run_config_ops [CfgSetPort "/dev/ttyACM0"; CfgLoad] env1) /\
    securityKeys config = Some keys.
Proof.
  cbv zeta.
  assert (Hk : holds_keys (keys_drawn sim_env) (snd (loadConfig sim_env)))
    by (eexists; split; reflexivity).
  destruct (proj1 (security_keys_are_never_regenerated Hk)
              [CfgSetPort "/dev/ttyACM0"; CfgLoad])
    as [_ [_ [config [Hrun Hkeys]]]].
  exists (keys_drawn sim_env), config. auto.
Defined.

Lemma loadConfig_on_array (env : CfgEnv) :
  config_file env = ConfigArray ->
  loadConfig env =
    (if config_writable env
     then Ok (ArrayValue {| stored_serialPort := None;
                            securityKeys := Some (keys_drawn env) |})
     else Throw WriteError,
     drawn 64 env).
Proof.
  intros Hf. unfold loadConfig. unfold bind at 1. unfold gets. rewrite Hf.
  cbn [parse_config get_securityKeys securityKeys].
  unfold bind at 1. unfold ret at 1. unfold bind at 1.
  rewrite generateSecurityKeys_run.
  cbn [set_securityKeys]. unfold bind, ret, saveConfig, drawn.
  cbn [config_file config_writable config_entropy stringify_config
       stored_serialPort].
  rewrite Hf. destruct (config_writable env); reflexivity.
Qed.

Lemma loadConfig_on_primitive (env : CfgEnv) :
  config_file env = ConfigPrimitive ->
  loadConfig env = (Throw TypeError, drawn 64 env).
Proof.
  intros Hf. unfold loadConfig. unfold bind at 1. unfold gets. rewrite Hf.
  cbn [parse_config get_securityKeys].
  unfold bind at 1. unfold ret at 1. unfold bind at 1.
  rewrite generateSecurityKeys_run. reflexivity.
Qed.

Lemma run_config_op_on_array (op : ConfigOp) (env : CfgEnv) :
  config_file env = ConfigArray ->
  config_file (run_config_op op env) = ConfigArray.
Proof.
  intros Hf. destruct op as [| port]; cbn [run_config_op].
  - rewrite (@loadConfig_on_array env Hf). exact Hf.
  - unfold updateSerialPort. unfold bind at 1.
    rewrite (@loadConfig_on_array env Hf).
    destruct (config_writable env) eqn:Hw; [| exact Hf].
    cbn [set_serialPort]. unfold bind, ret, saveConfig, drawn.
    cbn [config_writable]. rewrite Hw. reflexivity.
Qed.

(** X19.  A [config.json] that parses to something else than an object
    keeps no keys.  On [null], [loadConfig] and [updateSerialPort] throw a
    TypeError and change nothing.  On a number, string or boolean,
    [loadConfig] draws the keys and throws a TypeError with the file as it
    was.  On an array, [loadConfig] returns keys made of the next 64 random
    bytes at every call, and no sequence of [loadConfig] and
    [updateSerialPort] calls stores keys or port: the file stays an
    array. *)
Theorem config_of_another_shape_keeps_no_keys (env : CfgEnv) :
  (config_file env = ConfigNull ->
   loadConfig env = (Throw TypeError, env) /\
   forall port, updateSerialPort port env = (Throw TypeError, env))
  /\
  (config_file env = ConfigPrimitive ->
   fst (loadConfig env) = Throw TypeError /\
   config_file (snd (loadConfig env)) = ConfigPrimitive)
  /\
  (config_file env = ConfigArray ->
   (forall ops : list ConfigOp,
       config_file (run_config_ops ops env) = ConfigArray) /\
   (config_writable env = true ->
    fst (loadConfig env)
      = Ok (ArrayValue {| stored_serialPort := None;
                          securityKeys := Some (keys_drawn env) |}) /\
    fst (loadConfig (snd (loadConfig env)))
      = Ok (ArrayValue {| stored_serialPort := None;
                          securityKeys := Some (keys_drawn (drawn 64 env)) |}) /\
    forall port,
      fst (updateSerialPort port env) = Ok tt /\
      exists config,
        fst (loadConfig (snd (updateSerialPort port env)))
          = Ok (ArrayValue config) /\
        stored_serialPort config = None)).
Proof.
  split; [| split].
  - intros Hf.
    assert (Hload : loadConfig env = (Throw TypeError, env))
      by (unfold loadConfig, bind, gets; rewrite Hf; reflexivity).
    split; [exact Hload |]. intros port.
    unfold updateSerialPort, bind. rewrite Hload. reflexivity.
  - intros Hf. rewrite (@loadConfig_on_primitive env Hf).
    split; [reflexivity | exact Hf].
  - intros Hf. split.
    + intros ops. unfold run_config_ops. revert env Hf.
      induction ops as [| op rest IH]; intros env Hf; cbn [fold_left];
        [exact Hf |].
      apply IH. apply run_config_op_on_array. exact Hf.
    + intros Hw. rewrite (@loadConfig_on_array env Hf), Hw. cbn [fst snd].
      split; [reflexivity |]. split.
      * rewrite (@loadConfig_on_array (drawn 64 env) Hf).
        cbn [drawn config_writable fst]. rewrite Hw. reflexivity.
      * intros port. unfold updateSerialPort. unfold bind at 1 3.
        rewrite (@loadConfig_on_array env Hf), Hw.
        cbn [set_serialPort]. unfold bind, ret, saveConfig.
        cbn [drawn config_writable]. rewrite Hw. cbn [fst snd].
        split; [reflexivity |].
        eexists. split.
        -- rewrite loadConfig_on_array by reflexivity.
           cbn [config_writable fst]. reflexivity.
        -- reflexivity.
Qed.

(** With [[]] in [config.json], two calls of [loadConfig] in a row return
    different keys. *)
Lemma config_of_another_shape_keeps_no_keys_witness :
  fst (loadConfig sim_env_array)
    = Ok (ArrayValue {| stored_serialPort := None;
                        securityKeys := Some (keys_drawn sim_env_array) |}) /\
  fst (loadConfig (snd (loadConfig sim_env_array)))
    = Ok (ArrayValue {| stored_serialPort := None;
                        securityKeys :=
                          Some (keys_drawn (drawn 64 sim_env_array)) |}) /\
  keys_drawn (drawn 64 sim_env_array) <> keys_drawn sim_env_array.
Proof.
  destruct (proj2 (proj2 (config_of_another_shape_keeps_no_keys sim_env_array))
              eq_refl) as [_ Harr].
  destruct (Harr eq_refl) as [H1 [H2 _]].
  split; [exact H1 |]. split; [exact H2 |].
  vm_compute. discriminate.
Defined.

(* ================================================================== *)
(** * The code-length commands *)
(* ================================================================== *)

(** X16.  [setUserCodeLength] sends the set of parameter 16 exactly when the
    node exists, has the Configuration command class, and the length is an
    integer from 4 to 8 or is NaN, which both comparisons let through.  For
    every integer below 4 or above 8 it throws the range error and sends
    nothing; the node and the command class are checked before the
    length. *)
Theorem setUserCodeLength_checks_range
    (D : Type) (nodes : ConfigNodes D) (nodeId : Z) (length : JsNumber)
    (d : D) :
  let run := setUserCodeLength nodes nodeId length d in
  (snd (snd run) = [EvConfigSet 16 length] \/ snd (snd run) = []) /\
  (snd (snd run) = [EvConfigSet 16 length] <->
   (exists configCC, nodes nodeId = Some (Some configCC)) /\
   (length = NaN \/ exists z, length = Int z /\ 4 <= z <= 8)) /\
  (forall z, length = Int z -> z < 4 \/ 8 < z ->
     snd run = (d, []) /\
     fst run = inl match nodes nodeId with
                   | None => LengthNodeNotFound nodeId
                   | Some None => LengthNoConfigurationCC nodeId
                   | Some (Some _) => LengthOutOfRange
                   end).
Proof.
  cbv zeta. unfold setUserCodeLength.
  destruct (nodes nodeId) as [[configCC |] |] eqn:Hn.
  - destruct length as [z |]; cbn [js_lt js_gt orb].
    + destruct (z <? 4) eqn:Hlo; destruct (8 <? z) eqn:Hhi; cbn [orb fst snd];
        try apply Z.ltb_lt in Hlo; try apply Z.ltb_ge in Hlo;
        try apply Z.ltb_lt in Hhi; try apply Z.ltb_ge in Hhi.
      1-3: (split; [right; reflexivity |]; split;
            [split; [discriminate |];
             intros [_ [Hnan | [z' [Hz Hr]]]];
             [discriminate | injection Hz as <-; lia]
            | intros z' Hz Hout; split; reflexivity ]).
      destruct (config_set configCC 16 (Int z) d) as [[u | msg] d'];
        cbn [fst snd];
        (split; [left; reflexivity |]; split;
         [split; [intros _; split; [eexists; reflexivity |];
                  right; exists z; split; [reflexivity | lia]
                 | reflexivity]
         | intros z' Hz Hout; injection Hz as <-; lia ]).
    + destruct (config_set configCC 16 NaN d) as [[u | msg] d'];
        cbn [fst snd];
        (split; [left; reflexivity |]; split;
         [split; [intros _; split; [eexists; reflexivity | left; reflexivity]
                 | reflexivity]
         | intros z' Hz; discriminate Hz ]).
  - cbn [fst snd]. split; [right; reflexivity |]. split.
    + split; [discriminate | intros [[cc Hcc] _]; discriminate].
    + intros z Hz Hout. split; reflexivity.
  - cbn [fst snd]. split; [right; reflexivity |]. split.
    + split; [discriminate | intros [[cc Hcc] _]; discriminate].
    + intros z Hz Hout. split; reflexivity.
Qed.

(** Length 3 is refused with nothing sent; length 6 and NaN are sent. *)
Lemma setUserCodeLength_checks_range_witness :
  snd (setUserCodeLength sim_config_nodes 8 (Int 3) None) = (None, []) /\
  snd (snd (setUserCodeLength sim_config_nodes 8 (Int 6) None))
    = [EvConfigSet 16 (Int 6)] /\
  snd (snd (setUserCodeLength sim_config_nodes 8 NaN None))
    = [EvConfigSet 16 NaN].
Proof.
  destruct (@setUserCodeLength_checks_range (option JsNumber) sim_config_nodes
              8 (Int 3) None) as [_ [_ Hlow]].
  destruct (@setUserCodeLength_checks_range (option JsNumber) sim_config_nodes
              8 (Int 6) None) as [_ [Hsix _]].
  destruct (@setUserCodeLength_checks_range (option JsNumber) sim_config_nodes
              8 NaN None) as [_ [Hnan _]].
  split; [| split].
  - apply (proj1 (Hlow 3 eq_refl (or_introl eq_refl))).
  - apply Hsix. split; [eexists; reflexivity |].
    right. exists 6. split; [reflexivity | lia].
  - apply Hnan. split; [eexists; reflexivity | left; reflexivity].
Defined.

(** X17.  [getUserCodeLength] throws for an unknown node and for nothing
    else: a node without the Configuration command class, a read that fails
    and a read that answers no value all return [undefined].  It returns a
    length exactly when the read of parameter 16 answered one, and it sends
    at most that one read. *)
Theorem getUserCodeLength_only_throws_not_found
    (D : Type) (nodes : ConfigNodes D) (nodeId : Z) (d : D) :
  let run := getUserCodeLength nodes nodeId d in
  (forall e, fst run = inl e ->
     e = LengthNodeNotFound nodeId /\ nodes nodeId = None /\ snd run = (d, [])) /\
  (nodes nodeId <> None -> exists value, fst run = inr value) /\
  (forall z, fst run = inr (Some z) <->
     exists configCC,
       nodes nodeId = Some (Some configCC) /\
       fst (config_get configCC 16 d) = Answer (Some z)) /\
  (snd (snd run) = [] \/ snd (snd run) = [EvConfigGet 16]).
Proof.
  cbv zeta. unfold getUserCodeLength.
  destruct (nodes nodeId) as [[configCC |] |] eqn:Hn.
  - destruct (config_get configCC 16 d) as [[value | msg] d'] eqn:Hget;
      cbn [fst snd].
    + split; [intros e He; discriminate He |].
      split; [intros _; eexists; reflexivity |].
      split; [| right; reflexivity].
      intros z. split.
      * intros Hz. injection Hz as ->. exists configCC.
        rewrite Hget. auto.
      * intros [cc [Hcc Hans]]. injection Hcc as <-. rewrite Hget in Hans.
        cbn [fst] in Hans. injection Hans as ->. reflexivity.
    + split; [intros e He; discriminate He |].
      split; [intros _; eexists; reflexivity |].
      split; [| right; reflexivity].
      intros z. split; [discriminate |].
      intros [cc [Hcc Hans]]. injection Hcc as <-. rewrite Hget in Hans.
      discriminate Hans.
  - cbn [fst snd]. split; [intros e He; discriminate He |].
    split; [intros _; eexists; reflexivity |].
    split; [| left; reflexivity].
    intros z. split; [discriminate | intros [cc [Hcc _]]; discriminate].
  - cbn [fst snd]. split.
    + intros e He. injection He as <-. auto.
    + split; [intros H; exfalso; apply H; reflexivity |].
      split; [| left; reflexivity].
      intros z. split; [discriminate | intros [cc [Hcc _]]; discriminate].
Qed.

(** After length 6 was set on the simulated lock it is read back; an
    unknown node is the one case that throws. *)
Lemma getUserCodeLength_only_throws_not_found_witness :
  fst (getUserCodeLength sim_config_nodes 8 (Some (Int 6))) = inr (Some 6) /\
  (exists value, fst (getUserCodeLength sim_config_nodes 8 None) = inr value).
Proof.
  destruct (@getUserCodeLength_only_throws_not_found (option JsNumber)
              sim_config_nodes 8 (Some (Int 6))) as [_ [_ [Hread _]]].
  destruct (@getUserCodeLength_only_throws_not_found (option JsNumber)
              sim_config_nodes 8 None) as [_ [Hany _]].
  split.
  - apply Hread. eexists. split; reflexivity.
  - apply Hany. discriminate.
Defined.

(* ================================================================== *)
(** * The reconnect timer under every interleaving *)
(* ================================================================== *)

(** X18.  However 'error' events, 'driver ready' events, connection
    attempts, timer firings and shutdowns interleave, at most one reconnect
    timer is armed at any time, and it is the one [reconnectTimeout] holds:
    when that variable is null no timer is armed at all.  Calling
    [scheduleReconnect] again while a timer is armed changes nothing. *)
Theorem reconnect_timer_is_unique (s : Mgr) :
  reachable s ->
  (List.length (pending s) <= 1)%nat /\
  (forall t, In t (pending s) -> reconnectTimeout s = Some t) /\
  (reconnectTimeout s = None -> pending s = []) /\
  scheduleReconnect (scheduleReconnect s) = scheduleReconnect s /\
  (List.length (pending (scheduleReconnect s)) <= 1)%nat.
Proof.
  intros Hr. pose proof (reachable_timers_ok Hr) as Hok.
  pose proof (scheduleReconnect_ok Hok) as Hok'.
  unfold timers_ok in Hok, Hok'. split; [| split; [| split; [| split]]].
  - rewrite Hok. destruct (reconnectTimeout s); cbn; lia.
  - intros t Hin. rewrite Hok in Hin.
    destruct (reconnectTimeout s) as [t' |]; [| destruct Hin].
    destruct Hin as [-> | []]. reflexivity.
  - intros Hnone. rewrite Hok, Hnone. reflexivity.
  - unfold scheduleReconnect at 2 3.
    destruct (reconnectTimeout s) as [t |] eqn:Ht.
    + apply (scheduleReconnect_debounced s Ht).
    + reflexivity.
  - rewrite Hok'. destruct (reconnectTimeout (scheduleReconnect s)); cbn; lia.
Qed.

(** While the retry of a failed start is pending, its timer is the only
    one. *)
Lemma reconnect_timer_is_unique_witness :
  (List.length (pending (run_manager sim_config [unplugged])) <= 1)%nat /\
  reconnectTimeout (run_manager sim_config [unplugged]) = Some 1%nat.
Proof.
  destruct (@reconnect_timer_is_unique (run_manager sim_config [unplugged])
              (run_manager_reachable sim_config [unplugged]))
    as [Hlen [Hnamed _]].
  split; [exact Hlen |]. apply Hnamed. left. reflexivity.
Defined.
